(** * Territory-name standardisation for Italian administrative units

    A shallow embedding of [aliases_helper.py],
    [standardize_italy_admin_names.py] and the entry guard of
    [completeness.py], followed by the properties of the resolution
    engine that the specification states.

    Python values are modelled as follows.
    - [str] is a sequence of Unicode code points: [text := list N].
      String literals are written as in the source and decoded from the
      UTF-8 bytes of the Rocq literal by [utf8].
    - [dict] is an insertion-ordered association list with the update
      semantics of Python dictionaries ([dict_set] overwrites in place,
      otherwise appends).
    - exceptions are explicit: a fallible function returns [result]. *)

From Stdlib Require Import List NArith PeanoNat Bool Ascii String QArith Lia.
Import ListNotations.

(* ================================================================== *)
(** * Text: sequences of code points *)
(* ================================================================== *)

Definition codepoint := N.
Definition text := list codepoint.

(** Decoding of the UTF-8 bytes of a literal into code points. *)
Fixpoint utf8_decode (bs : list N) : text :=
  (match bs with
   | [] => []
   | b0 :: r0 =>
     if b0 <? 0x80 then b0 :: utf8_decode r0
     else match r0 with
       | [] => [b0]
       | b1 :: r1 =>
         if b0 <? 0xE0 then ((b0 - 0xC0) * 64 + (b1 - 0x80)) :: utf8_decode r1
         else match r1 with
           | [] => [b0; b1]
           | b2 :: r2 =>
             if b0 <? 0xF0
             then ((b0 - 0xE0) * 4096 + (b1 - 0x80) * 64 + (b2 - 0x80))
                    :: utf8_decode r2
             else match r2 with
               | [] => [b0; b1; b2]
               | b3 :: r3 =>
                 ((b0 - 0xF0) * 262144 + (b1 - 0x80) * 4096
                  + (b2 - 0x80) * 64 + (b3 - 0x80)) :: utf8_decode r3
               end
           end
       end
   end)%N.

Definition utf8 (s : string) : text :=
  utf8_decode (map N_of_ascii (list_ascii_of_string s)).

Fixpoint text_eqb (s t : text) : bool :=
  match s, t with
  | [], [] => true
  | c :: s', d :: t' => N.eqb c d && text_eqb s' t'
  | _, _ => false
  end.

(** Python compares strings lexicographically by code point. *)
Fixpoint text_compare (s t : text) : comparison :=
  match s, t with
  | [], [] => Eq
  | [], _ :: _ => Lt
  | _ :: _, [] => Gt
  | c :: s', d :: t' =>
    match N.compare c d with
    | Eq => text_compare s' t'
    | o => o
    end
  end.

Definition text_ltb (s t : text) : bool :=
  match text_compare s t with Lt => true | _ => false end.

(** [starts_with p s] is the rest of [s] after the prefix [p]. *)
Fixpoint starts_with (p s : text) : option text :=
  match p, s with
  | [], _ => Some s
  | c :: p', d :: s' => if N.eqb c d then starts_with p' s' else None
  | _ :: _, [] => None
  end.

(** [sub in s], the substring test of Python. *)
Fixpoint contains (sub s : text) : bool :=
  match starts_with sub s with
  | Some _ => true
  | None => match s with
            | [] => false
            | _ :: s' => contains sub s'
            end
  end.

Definition mem (x : text) (l : list text) : bool := existsb (text_eqb x) l.

(* ================================================================== *)
(** * The Unicode character database, on the repertoire of Italian labels

    [str.lower], [str.isspace] (also the class [\s] of [re]),
    [unicodedata.normalize("NFKD", _)] and [unicodedata.combining] are
    tabulated for Basic Latin, Latin-1 Supplement, the Combining
    Diacritical Marks block and the typographic apostrophe and dashes
    named by the source.  [covered] delimits that repertoire. *)
(* ================================================================== *)

Definition covered_char (c : codepoint) : bool :=
  ((c <? 0x100) || ((0x300 <=? c) && (c <=? 0x36F))
   || (c =? 0x2013) || (c =? 0x2014) || (c =? 0x2019))%N.

Definition covered (s : text) : bool := forallb covered_char s.

(** [str.lower], one character at a time. *)
Definition lower_char (c : codepoint) : codepoint :=
  (if (0x41 <=? c) && (c <=? 0x5A) then c + 32
   else if (0xC0 <=? c) && (c <=? 0xDE) && negb (c =? 0xD7) then c + 32
   else c)%N.

Definition lower (s : text) : text := map lower_char s.

(** [str.isspace] / [\s]. *)
Definition is_space (c : codepoint) : bool :=
  (((0x09 <=? c) && (c <=? 0x0D)) || ((0x1C <=? c) && (c <=? 0x20))
   || (c =? 0x85) || (c =? 0xA0))%N.

(** [unicodedata.combining(c) != 0]. *)
Definition combining (c : codepoint) : bool :=
  ((0x300 <=? c) && (c <=? 0x36F) && negb (c =? 0x34F))%N.

(** Full compatibility decomposition of one character. *)
Definition nfkd_char (c : codepoint) : text :=
  (match c with
   | 0xA0 => [0x20] | 0xA8 => [0x20; 0x308] | 0xAA => [0x61]
   | 0xAF => [0x20; 0x304] | 0xB2 => [0x32] | 0xB3 => [0x33]
   | 0xB4 => [0x20; 0x301] | 0xB5 => [0x3BC] | 0xB8 => [0x20; 0x327]
   | 0xB9 => [0x31] | 0xBA => [0x6F]
   | 0xBC => [0x31; 0x2044; 0x34] | 0xBD => [0x31; 0x2044; 0x32]
   | 0xBE => [0x33; 0x2044; 0x34]
   | 0xC0 => [0x41; 0x300] | 0xC1 => [0x41; 0x301] | 0xC2 => [0x41; 0x302]
   | 0xC3 => [0x41; 0x303] | 0xC4 => [0x41; 0x308] | 0xC5 => [0x41; 0x30A]
   | 0xC7 => [0x43; 0x327]
   | 0xC8 => [0x45; 0x300] | 0xC9 => [0x45; 0x301] | 0xCA => [0x45; 0x302]
   | 0xCB => [0x45; 0x308]
   | 0xCC => [0x49; 0x300] | 0xCD => [0x49; 0x301] | 0xCE => [0x49; 0x302]
   | 0xCF => [0x49; 0x308]
   | 0xD1 => [0x4E; 0x303]
   | 0xD2 => [0x4F; 0x300] | 0xD3 => [0x4F; 0x301] | 0xD4 => [0x4F; 0x302]
   | 0xD5 => [0x4F; 0x303] | 0xD6 => [0x4F; 0x308]
   | 0xD9 => [0x55; 0x300] | 0xDA => [0x55; 0x301] | 0xDB => [0x55; 0x302]
   | 0xDC => [0x55; 0x308] | 0xDD => [0x59; 0x301]
   | 0xE0 => [0x61; 0x300] | 0xE1 => [0x61; 0x301] | 0xE2 => [0x61; 0x302]
   | 0xE3 => [0x61; 0x303] | 0xE4 => [0x61; 0x308] | 0xE5 => [0x61; 0x30A]
   | 0xE7 => [0x63; 0x327]
   | 0xE8 => [0x65; 0x300] | 0xE9 => [0x65; 0x301] | 0xEA => [0x65; 0x302]
   | 0xEB => [0x65; 0x308]
   | 0xEC => [0x69; 0x300] | 0xED => [0x69; 0x301] | 0xEE => [0x69; 0x302]
   | 0xEF => [0x69; 0x308]
   | 0xF1 => [0x6E; 0x303]
   | 0xF2 => [0x6F; 0x300] | 0xF3 => [0x6F; 0x301] | 0xF4 => [0x6F; 0x302]
   | 0xF5 => [0x6F; 0x303] | 0xF6 => [0x6F; 0x308]
   | 0xF9 => [0x75; 0x300] | 0xFA => [0x75; 0x301] | 0xFB => [0x75; 0x302]
   | 0xFC => [0x75; 0x308] | 0xFD => [0x79; 0x301] | 0xFF => [0x79; 0x308]
   | 0x340 => [0x300] | 0x341 => [0x301] | 0x343 => [0x313]
   | 0x344 => [0x308; 0x301]
   | _ => [c]
   end)%N.

(** [str.strip()]. *)
Fixpoint lstrip (s : text) : text :=
  match s with
  | [] => []
  | c :: s' => if is_space c then lstrip s' else s
  end.

Fixpoint rstrip (s : text) : text :=
  match s with
  | [] => []
  | c :: s' =>
    match rstrip s' with
    | [] => if is_space c then [] else [c]
    | t => c :: t
    end
  end.

Definition strip (s : text) : text := rstrip (lstrip s).

(* ================================================================== *)
(** * Normalization helpers ([standardize_italy_admin_names.py]) *)
(* ================================================================== *)

(** ["".join(c for c in unicodedata.normalize("NFKD", s)
             if not unicodedata.combining(c))].  Canonical reordering
    only permutes characters of non-zero combining class, which are the
    ones dropped, so the result is the concatenation of the filtered
    decompositions of the characters. *)
Definition strip_accents (s : text) : text :=
  flat_map (fun c => filter (fun d => negb (combining d)) (nfkd_char c)) s.

Definition SP : codepoint := 0x20%N.

(** The class [[’'`]]. *)
Definition is_apostrophe (c : codepoint) : bool :=
  ((c =? 0x2019) || (c =? 0x27) || (c =? 0x60))%N.

(** The class [[-–—]]. *)
Definition is_dash (c : codepoint) : bool :=
  ((c =? 0x2D) || (c =? 0x2013) || (c =? 0x2014))%N.

(** [re.sub(r"[...]", " ", s)] for a character class. *)
Definition sub_class (cls : codepoint -> bool) (s : text) : text :=
  map (fun c => if cls c then SP else c) s.

(** [re.sub(r"\s+", " ", s)]: every maximal run of white space becomes
    one space.  [in_run] tells that the previous character was white. *)
Fixpoint sub_ws_runs (in_run : bool) (s : text) : text :=
  match s with
  | [] => []
  | c :: s' =>
    if is_space c
    then (if in_run then sub_ws_runs true s' else SP :: sub_ws_runs true s')
    else c :: sub_ws_runs false s'
  end.

Definition collapse_ws (s : text) : text := sub_ws_runs false s.

(** The alternatives of the prefix pattern, in the order of the source. *)
Definition LEGAL_PREFIXES : list text :=
  [utf8 "provincia di"; utf8 "prov di"; utf8 "citta metropolitana di"].

(** One attempt of [^(p)\s+] at the start of [s]: what follows the match. *)
Definition match_prefix (p s : text) : option text :=
  match starts_with p s with
  | Some (c :: r) => if is_space c then Some (lstrip r) else None
  | _ => None
  end.

(** The first alternative that matches decides. *)
Fixpoint match_any_prefix (ps : list text) (s : text) : option text :=
  match ps with
  | [] => None
  | p :: ps' =>
    match match_prefix p s with
    | Some r => Some r
    | None => match_any_prefix ps' s
    end
  end.

(** [re.sub(r"^(provincia di|prov di|citta metropolitana di)\s+", "", s)]:
    the pattern is anchored, so at most one occurrence is removed. *)
Definition sub_legal_prefix (s : text) : text :=
  match match_any_prefix LEGAL_PREFIXES s with
  | Some r => r
  | None => s
  end.

Definition base_normalize (s : text) : text :=
  let s := strip_accents (strip (lower s)) in
  let s := sub_class is_apostrophe s in
  let s := sub_class is_dash s in
  let s := collapse_ws s in
  let s := sub_legal_prefix s in
  strip s.

(* ================================================================== *)
(** * Python values: exceptions and dictionaries *)
(* ================================================================== *)

Inductive exn : Type :=
| KeyError
| ValueError (msg : string).

Inductive result (A : Type) : Type :=
| Ok (a : A)
| Raise (e : exn).

Arguments Ok {A} a.
Arguments Raise {A} e.

Definition bind {A B : Type} (m : result A) (k : A -> result B) : result B :=
  match m with
  | Ok a => k a
  | Raise e => Raise e
  end.

Notation "x <- m ;; k" := (bind m (fun x => k))
  (at level 61, m at next level, right associativity).

(** Equality on dictionary keys ([__eq__]). *)
Class Eqb (K : Type) := eqb_key : K -> K -> bool.

#[export] Instance text_Eqb : Eqb text := text_eqb.
#[export] Instance codepoint_Eqb : Eqb codepoint := N.eqb.
#[export] Instance nat_Eqb : Eqb nat := Nat.eqb.

Section Dict.
Context {K V : Type} `{Eqb K}.

(** Insertion-ordered dictionary. *)
Definition dict := list (K * V).

(** [d.get(k)]. *)
Fixpoint dict_get (k : K) (d : dict) : option V :=
  match d with
  | [] => None
  | (k', v) :: d' => if eqb_key k k' then Some v else dict_get k d'
  end.

(** [k in d]. *)
Definition dict_mem (k : K) (d : dict) : bool :=
  match dict_get k d with Some _ => true | None => false end.

(** [d.get(k, default)]. *)
Definition dict_get_default (k : K) (d : dict) (default : V) : V :=
  match dict_get k d with Some v => v | None => default end.

(** [d[k]], which raises [KeyError] on a missing key. *)
Definition subscript (d : dict) (k : K) : result V :=
  match dict_get k d with Some v => Ok v | None => Raise KeyError end.

(** [d[k] = v]: an existing key keeps its position. *)
Fixpoint dict_set (k : K) (v : V) (d : dict) : dict :=
  match d with
  | [] => [(k, v)]
  | (k', v') :: d' =>
    if eqb_key k k' then (k', v) :: d' else (k', v') :: dict_set k v d'
  end.

(** [del d[k]] for a key known to be present. *)
Fixpoint dict_del (k : K) (d : dict) : dict :=
  match d with
  | [] => []
  | (k', v') :: d' =>
    if eqb_key k k' then d' else (k', v') :: dict_del k d'
  end.

(** A dictionary display or comprehension: items are stored in order. *)
Definition dict_of (items : list (K * V)) : dict :=
  fold_left (fun d kv => dict_set (fst kv) (snd kv) d) items [].

Definition dict_keys (d : dict) : list K := map fst d.
Definition dict_values (d : dict) : list V := map snd d.
End Dict.

Arguments dict K V : clear implicits.

(** [sorted(l)] on strings: stable insertion sort by code point. *)
Fixpoint insert_sorted (x : text) (l : list text) : list text :=
  match l with
  | [] => [x]
  | y :: l' => if text_ltb x y then x :: l else y :: insert_sorted x l'
  end.


Definition sorted (l : list text) : list text :=
  fold_left (fun acc x => insert_sorted x acc) l [].

(** The elements of a [set] built from [l], each once. *)
Fixpoint set_of (l : list text) : list text :=
  match l with
  | [] => []
  | x :: l' => if mem x l' then set_of l' else x :: set_of l'
  end.

(* ================================================================== *)
(** * Reference data ([aliases_helper.py]) *)
(* ================================================================== *)

Definition REGIONS : list text := map utf8 [
  "Abruzzo";"Basilicata";"Calabria";"Campania";"Emilia-Romagna";"Friuli-Venezia Giulia";
  "Lazio";"Liguria";"Lombardia";"Marche";"Molise";"Piemonte";"Puglia";"Sardegna";
  "Sicilia";"Toscana";"Trentino-Alto Adige/Südtirol";"Umbria";"Valle d'Aosta/Vallée d'Aoste";"Veneto"
]%string.

Definition entry (k : string) (vs : list string) : text * list text :=
  (utf8 k, map utf8 vs).

Definition REGION_TO_PROVINCES : dict text (list text) := dict_of [
  entry "Abruzzo" ["L'Aquila";"Teramo";"Pescara";"Chieti"];
  entry "Basilicata" ["Potenza";"Matera"];
  entry "Calabria" ["Catanzaro";"Cosenza";"Crotone";"Reggio Calabria";"Vibo Valentia"];
  entry "Campania" ["Avellino";"Benevento";"Caserta";"Napoli";"Salerno"];
  entry "Emilia-Romagna" ["Bologna";"Ferrara";"Forlì-Cesena";"Modena";"Parma";"Piacenza";"Ravenna";"Reggio nell'Emilia";"Rimini"];
  entry "Friuli-Venezia Giulia" ["Gorizia";"Pordenone";"Trieste";"Udine"];
  entry "Lazio" ["Frosinone";"Latina";"Rieti";"Roma";"Viterbo"];
  entry "Liguria" ["Genova";"Imperia";"La Spezia";"Savona"];
  entry "Lombardia" ["Bergamo";"Brescia";"Como";"Cremona";"Lecco";"Lodi";"Mantova";"Milano";"Monza e della Brianza";"Pavia";"Sondrio";"Varese"];
  entry "Marche" ["Ancona";"Ascoli Piceno";"Fermo";"Macerata";"Pesaro e Urbino"];
  entry "Molise" ["Campobasso";"Isernia"];
  entry "Piemonte" ["Alessandria";"Asti";"Biella";"Cuneo";"Novara";"Torino";"Verbano-Cusio-Ossola";"Vercelli"];
  entry "Puglia" ["Bari";"Barletta-Andria-Trani";"Brindisi";"Foggia";"Lecce";"Taranto"];
  entry "Sardegna" ["Cagliari";"Nuoro";"Oristano";"Sassari";"Sud Sardegna"];
  entry "Sicilia" ["Agrigento";"Caltanissetta";"Catania";"Enna";"Messina";"Palermo";"Ragusa";"Siracusa";"Trapani"];
  entry "Toscana" ["Arezzo";"Firenze";"Grosseto";"Livorno";"Lucca";"Massa-Carrara";"Pisa";"Pistoia";"Prato";"Siena"];
  entry "Trentino-Alto Adige/Südtirol" ["Bolzano/Bozen";"Trento"];
  entry "Umbria" ["Perugia";"Terni"];
  entry "Valle d'Aosta/Vallée d'Aoste" ["Aosta"];
  entry "Veneto" ["Belluno";"Padova";"Rovigo";"Treviso";"Venezia";"Verona";"Vicenza"]
]%string.

(** [{prov: region for region, provs in REGION_TO_PROVINCES.items()
                   for prov in provs}]. *)
Definition PROVINCE_TO_REGION : dict text text := Eval vm_compute in
  dict_of (flat_map (fun rp => map (fun prov => (prov, fst rp)) (snd rp))
                    REGION_TO_PROVINCES).

Definition MACRO_TO_REGIONS : dict text (list text) := dict_of [
  entry "Nord-ovest" ["Piemonte"; "Valle d'Aosta/Vallée d'Aoste"; "Liguria"; "Lombardia"];
  entry "Nord-est"   ["Trentino-Alto Adige/Südtirol"; "Veneto"; "Friuli-Venezia Giulia"; "Emilia-Romagna"];
  entry "Centro"     ["Toscana"; "Umbria"; "Marche"; "Lazio"];
  entry "Sud"        ["Abruzzo"; "Molise"; "Campania"; "Puglia"; "Basilicata"; "Calabria"];
  entry "Isole"      ["Sicilia"; "Sardegna"]
]%string.

(** [{region: macro for macro, regions in MACRO_TO_REGIONS.items()
                     for region in regions}]. *)
Definition REGION_TO_MACRO : dict text text := Eval vm_compute in
  dict_of (flat_map (fun mr => map (fun reg => (reg, fst mr)) (snd mr))
                    MACRO_TO_REGIONS).

Definition METRO_CITIES : list text := set_of (map utf8 [
  "Torino";"Milano";"Venezia";"Genova";"Bologna";"Firenze";"Roma";"Napoli";"Bari";"Reggio Calabria";
  "Cagliari";"Catania";"Messina";"Palermo"
]%string).

Definition CANONICAL_TO_ALIASES : dict text (list text) := dict_of [
  (* Provinces *)
  entry "Reggio nell'Emilia" ["reggio emilia"];
  entry "Reggio Calabria" ["reggio di calabria"];
  entry "Forlì-Cesena" ["forli cesena";"forli-cesena";"forlì cesena"];
  entry "La Spezia" ["spezia"];
  entry "Massa-Carrara" ["massa carrara";"massa-carrara"];
  entry "Monza e della Brianza" ["monza e brianza";"monza brianza"];
  entry "Bolzano/Bozen" ["bolzano";"bozen";"bolzano-bozen";"bozen-bolzano"];
  entry "Barletta-Andria-Trani" ["barletta andria trani";"bat";"b.a.t."];
  entry "Pesaro e Urbino" ["pesaro urbino"];
  entry "Valle d'Aosta/Vallée d'Aoste" ["valle d aosta";"valle d'aosta";"valle d’aosta";"vallee daoste"];
  (* Regions *)
  entry "Friuli-Venezia Giulia" ["friuli venezia giulia"];
  entry "Trentino-Alto Adige/Südtirol" ["trentino alto adige";"trentino-alto adige"]
]%string.

(* ================================================================== *)
(** * [difflib]: the similarity search behind [get_close_matches]

    [SequenceMatcher(isjunk=None, autojunk=True)] with [a] the candidate
    and [b] the word.  A ratio [2.0 * matches / length] is kept as an
    exact rational; the comparison with the cutoff agrees with the one
    on floats for every text a machine can hold. *)
(* ================================================================== *)

Definition Match := (nat * nat * nat)%type.

(** [a[lo:hi]]. *)
Definition slice (a : text) (lo hi : nat) : text := firstn (hi - lo) (skipn lo a).

Fixpoint common_prefix (x y : text) : nat :=
  match x, y with
  | c :: x', d :: y' => if N.eqb c d then S (common_prefix x' y') else O
  | _, _ => O
  end.

(** [__chain_b]: the positions of every element of [b]; when [b] has 200
    elements or more, the elements that occur more than 1% + 1 times are
    "popular" and lose their entry. *)
Definition chain_b (b : text) : dict codepoint (list nat) :=
  let b2j :=
    fold_left (fun d ie => dict_set (snd ie)
                             (dict_get_default (snd ie) d [] ++ [fst ie]) d)
              (combine (seq 0 (List.length b)) b) [] in
  let n := List.length b in
  if (200 <=? n)%nat then
    let ntest := (n / 100 + 1)%nat in
    let popular := map fst (filter (fun kv => (ntest <? List.length (snd kv))%nat) b2j) in
    fold_left (fun d elt => dict_del elt d) popular b2j
  else b2j.

(** The inner loop of [find_longest_match], [for j in b2j.get(a[i], [])]:
    [k = newj2len[j] = j2len.get(j-1, 0) + 1], and the best block moves
    to [(i-k+1, j-k+1, k)] when [k > bestsize]. *)
Fixpoint flm_row (js : list nat) (blo bhi i : nat)
         (j2len newj2len : dict nat nat) (best : Match)
  : dict nat nat * Match :=
  match js with
  | [] => (newj2len, best)
  | j :: js' =>
    if (j <? blo)%nat then flm_row js' blo bhi i j2len newj2len best
    else if (bhi <=? j)%nat then (newj2len, best)
    else
      let k := (match j with
                | O => O
                | S j' => dict_get_default j' j2len O
                end + 1)%nat in
      let newj2len := dict_set j k newj2len in
      let best := if (snd best <? k)%nat
                  then ((i + 1 - k)%nat, (j + 1 - k)%nat, k) else best in
      flm_row js' blo bhi i j2len newj2len best
  end.

(** The outer loop, [for i in range(alo, ahi)], from
    [besti, bestj, bestsize = alo, blo, 0]. *)
Definition flm_rows (a : text) (b2j : dict codepoint (list nat))
           (alo ahi blo bhi : nat) : dict nat nat * Match :=
  fold_left (fun st i =>
               flm_row (dict_get_default (nth i a 0%N) b2j []) blo bhi i
                       (fst st) [] (snd st))
            (seq alo (ahi - alo)) ([], (alo, blo, O)).

(** [find_longest_match(alo, ahi, blo, bhi)].  No element is junk, so of
    the four extension loops only the two over non-junk elements run:
    the block grows to the left by the common suffix of [a[alo:besti]]
    and [b[blo:bestj]], then to the right by the common prefix of what
    follows it. *)
Definition find_longest_match (a b : text) (b2j : dict codepoint (list nat))
           (alo ahi blo bhi : nat) : Match :=
  let '(besti, bestj, bestsize) := snd (flm_rows a b2j alo ahi blo bhi) in
  let l := common_prefix (rev (slice a alo besti)) (rev (slice b blo bestj)) in
  let besti := (besti - l)%nat in
  let bestj := (bestj - l)%nat in
  let bestsize := (bestsize + l)%nat in
  let r := common_prefix (slice a (besti + bestsize) ahi)
                         (slice b (bestj + bestsize) bhi) in
  (besti, bestj, (bestsize + r)%nat).

(** [get_matching_blocks], before sorting: the longest block of the
    window, then the windows to its left and to its right.  [fuel]
    bounds the depth; a window of [a] of length [n] needs at most [n]. *)
Fixpoint matching_blocks (fuel : nat) (a b : text)
         (b2j : dict codepoint (list nat)) (alo ahi blo bhi : nat)
  : list Match :=
  match fuel with
  | O => []
  | S fuel' =>
    let '(i, j, k) := find_longest_match a b b2j alo ahi blo bhi in
    if (k =? 0)%nat then []
    else
      (i, j, k)
        :: (if (alo <? i)%nat && (blo <? j)%nat
            then matching_blocks fuel' a b b2j alo i blo j else [])
        ++ (if (i + k <? ahi)%nat && (j + k <? bhi)%nat
            then matching_blocks fuel' a b b2j (i + k) ahi (j + k) bhi else [])
  end.

Definition get_matching_blocks (a b : text) : list Match :=
  matching_blocks (List.length a) a b (chain_b b) 0 (List.length a) 0 (List.length b).

(** [_calculate_ratio(matches, length)]. *)
Definition calculate_ratio (matches len : nat) : Q :=
  match len with
  | O => 1
  | S _ => (2 * Z.of_nat matches) # (Pos.of_nat len)
  end.

(** [sum(triple[-1] for triple in self.get_matching_blocks())]. *)
Definition matches_of (a b : text) : nat :=
  fold_left (fun acc m => (acc + snd m)%nat) (get_matching_blocks a b) O.

Definition ratio (a b : text) : Q :=
  calculate_ratio (matches_of a b) (List.length a + List.length b)%nat.

(** [quick_ratio]: the size of the multiset intersection as matches. *)
Definition fullbcount (b : text) : dict codepoint nat :=
  fold_left (fun d elt => dict_set elt (dict_get_default elt d O + 1)%nat d) b [].

Definition quick_matches (a b : text) : nat :=
  let fbc := fullbcount b in
  snd (fold_left
         (fun st elt =>
            let numb := match dict_get elt (fst st) with
                        | Some n => n
                        | None => Z.of_nat (dict_get_default elt fbc O)
                        end in
            (dict_set elt (numb - 1)%Z (fst st),
             if (0 <? numb)%Z then (snd st + 1)%nat else snd st))
         a ([], O)).

Definition quick_ratio (a b : text) : Q :=
  calculate_ratio (quick_matches a b) (List.length a + List.length b)%nat.

Definition real_quick_ratio (a b : text) : Q :=
  calculate_ratio (Nat.min (List.length a) (List.length b))
                  (List.length a + List.length b)%nat.

(** Order of the [(score, x)] tuples. *)
Definition scored_ltb (x y : Q * text) : bool :=
  match Qcompare (fst x) (fst y) with
  | Lt => true
  | Eq => text_ltb (snd x) (snd y)
  | Gt => false
  end.

Fixpoint insert_desc (x : Q * text) (l : list (Q * text)) : list (Q * text) :=
  match l with
  | [] => [x]
  | y :: l' => if scored_ltb y x then x :: l else y :: insert_desc x l'
  end.

(** [heapq.nlargest(n, l)], that is [sorted(l, reverse=True)[:n]]. *)
Definition nlargest (n : nat) (l : list (Q * text)) : list (Q * text) :=
  firstn n (fold_left (fun acc x => insert_desc x acc) l []).

Definition close_enough (cutoff : Q) (x word : text) : bool :=
  if Qle_bool cutoff (real_quick_ratio x word)
  then if Qle_bool cutoff (quick_ratio x word)
       then Qle_bool cutoff (ratio x word)
       else false
  else false.

Definition get_close_matches (word : text) (possibilities : list text)
           (n : nat) (cutoff : Q) : result (list text) :=
  if negb (0 <? n)%nat then Raise (ValueError "n must be > 0")
  else if negb (Qle_bool 0 cutoff && Qle_bool cutoff 1)
  then Raise (ValueError "cutoff must be in [0.0, 1.0]")
  else
    let scored :=
      flat_map (fun x => if close_enough cutoff x word
                         then [(ratio x word, x)] else [])
               possibilities in
    Ok (map snd (nlargest n scored)).

(* ================================================================== *)
(** * The standardizer ([standardize_italy_admin_names.py]) *)
(* ================================================================== *)

Definition CUTOFF : Q := 9 # 10.

Definition match_from_candidates (token : text) (candidates : list text)
  : result (option text) :=
  hits <- get_close_matches token candidates 1 CUTOFF ;;
  Ok (hd_error hits).

(** Truth value of [m] in [if m:], for [m] a string or [None]. *)
Definition truthy (m : option text) : bool :=
  match m with
  | Some (_ :: _) => true
  | _ => false
  end.

Definition ALL_REGIONS : list text := Eval vm_compute in
  dict_keys REGION_TO_PROVINCES.
Definition ALL_PROVINCES : list text := Eval vm_compute in
  sorted (set_of (List.concat (dict_values REGION_TO_PROVINCES))).
Definition MACROS : list text := Eval vm_compute in
  sorted (dict_keys MACRO_TO_REGIONS).

(** The set is listed in the order of the display; only its elements
    matter to [build_alias_map], which maps them all to one name. *)
Definition auto_variants_for_province (name : text) : list text :=
  let b := base_normalize name in
  let out := [b; utf8 "provincia di " ++ b; utf8 "prov di " ++ b] in
  set_of (if mem name METRO_CITIES
          then out ++ [utf8 "citta metropolitana di " ++ b]
          else out).

Definition build_alias_map : dict text text :=
  let aliases : dict text text := [] in
  (* Canonical exacts *)
  let aliases := fold_left (fun al r => dict_set (base_normalize r) r al) ALL_REGIONS aliases in
  let aliases := fold_left (fun al p => dict_set (base_normalize p) p al) ALL_PROVINCES aliases in
  let aliases := fold_left (fun al m => dict_set (base_normalize m) m al) MACROS aliases in
  (* Auto-variants for provinces *)
  let aliases :=
    fold_left (fun al p =>
                 fold_left (fun al a => dict_set (base_normalize a) p al)
                           (auto_variants_for_province p) al)
              ALL_PROVINCES aliases in
  (* Manual groups *)
  fold_left (fun al cv =>
               fold_left (fun al a => dict_set (base_normalize a) (fst cv) al)
                         (snd cv) al)
            CANONICAL_TO_ALIASES aliases.

(** [ALIASES = build_alias_map()], evaluated once when the module loads,
    like the tables that follow. *)
Definition ALIASES : dict text text := Eval vm_compute in build_alias_map.

Definition NORM_PROV : dict text text := Eval vm_compute in
  dict_of (map (fun k => (base_normalize k, k)) (dict_keys PROVINCE_TO_REGION)).
Definition NORM_REG : dict text text := Eval vm_compute in
  dict_of (map (fun k => (base_normalize k, k)) REGIONS).
Definition NORM_MAC : dict text text := Eval vm_compute in
  dict_of (map (fun k => (base_normalize k, k)) MACROS).
Definition NORM_ALIAS : dict text text := ALIASES.

Inductive Level : Type := province | region | macro | unknown.

(** The value stored under ["level"]. *)
Definition level_name (l : Level) : string :=
  match l with
  | province => "province"
  | region => "region"
  | macro => "macro"
  | unknown => "unknown"
  end.

(** The dictionary that [standardize_territory] returns. *)
Record Territory : Type := mkTerritory {
  level : Level;
  province_std : option text;
  region_std : option text;
  macro_std : option text
}.

Definition UNKNOWN : Territory := mkTerritory unknown None None None.

(** A stage either returns a record ([Some]) or falls through ([None]). *)
Definition stage := result (option Territory).

(** [# 1) Alias pass (fast exact on normalized)]. *)
Definition alias_pass (tok : text) : stage :=
  match dict_get tok NORM_ALIAS with
  | Some canonical =>
    if dict_mem canonical PROVINCE_TO_REGION then
      reg <- subscript PROVINCE_TO_REGION canonical ;;
      mac <- subscript REGION_TO_MACRO reg ;;
      Ok (Some (mkTerritory province (Some canonical) (Some reg) (Some mac)))
    else if mem canonical REGIONS then
      let reg := canonical in
      mac <- subscript REGION_TO_MACRO reg ;;
      Ok (Some (mkTerritory region None (Some reg) (Some mac)))
    else if mem canonical MACROS then
      Ok (Some (mkTerritory macro None None (Some canonical)))
    else Ok None
  | None => Ok None
  end.

(** Shared tails of stages 2 and 3: the record of a key of [NORM_PROV],
    [NORM_REG] or [NORM_MAC]. *)
Definition province_of_key (key : text) : stage :=
  p <- subscript NORM_PROV key ;;
  r <- subscript PROVINCE_TO_REGION p ;;
  mac <- subscript REGION_TO_MACRO r ;;
  Ok (Some (mkTerritory province (Some p) (Some r) (Some mac))).

Definition region_of_key (key : text) : stage :=
  r <- subscript NORM_REG key ;;
  mac <- subscript REGION_TO_MACRO r ;;
  Ok (Some (mkTerritory region None (Some r) (Some mac))).

Definition macro_of_key (key : text) : stage :=
  mac <- subscript NORM_MAC key ;;
  Ok (Some (mkTerritory macro None None (Some mac))).

(** [# 2) Direct exact on normalized]. *)
Definition exact_pass (tok : text) : stage :=
  if dict_mem tok NORM_PROV then province_of_key tok
  else if dict_mem tok NORM_REG then region_of_key tok
  else if dict_mem tok NORM_MAC then macro_of_key tok
  else Ok None.

(** [# 3) Fallback close-match]. *)
Definition fuzzy_pass (tok : text) : stage :=
  m <- match_from_candidates tok (dict_keys NORM_PROV) ;;
  if truthy m then province_of_key (match m with Some k => k | None => [] end)
  else
    m <- match_from_candidates tok (dict_keys NORM_REG) ;;
    if truthy m then region_of_key (match m with Some k => k | None => [] end)
    else
      m <- match_from_candidates tok (dict_keys NORM_MAC) ;;
      if truthy m then macro_of_key (match m with Some k => k | None => [] end)
      else Ok None.

Definition AOSTA : Territory :=
  mkTerritory region None (Some (utf8 "Valle d'Aosta/Vallée d'Aoste"))
              (Some (utf8 "Nord-ovest")).

(** [# 4) Last-resort heuristic (Aosta variants)]. *)
Definition aosta_pass (tok : text) : stage :=
  if contains (utf8 "aosta") tok then Ok (Some AOSTA) else Ok None.

(** The first stage that returns decides. *)
Definition or_else (s : stage) (next : stage) : stage :=
  r <- s ;;
  match r with
  | Some t => Ok (Some t)
  | None => next
  end.

(** The body of [standardize_territory] once [tok] is computed. *)
Definition resolve_token (tok : text) : result Territory :=
  r <- or_else (alias_pass tok)
         (or_else (exact_pass tok)
            (or_else (fuzzy_pass tok) (aosta_pass tok))) ;;
  match r with
  | Some t => Ok t
  | None => Ok UNKNOWN
  end.

(** [raw] is [None] or a string. *)
Definition standardize_territory (raw : option text) : result Territory :=
  match raw with
  | None => Ok UNKNOWN
  | Some raw => resolve_token (base_normalize raw)
  end.

(* ================================================================== *)
(** * The entry of the coverage functions ([completeness.py]) *)
(* ================================================================== *)

Definition LEVEL_ERROR : exn := ValueError "level must be 'province' or 'region'".

Definition _territory_col_for (level : string) : result string :=
  if negb (String.eqb level "province" || String.eqb level "region")
  then Raise LEVEL_ERROR
  else Ok (if String.eqb level "province" then "province_std" else "region_std")%string.

Section Completeness.
(** The [pandas] side: data frames, filters, and what the two functions
    compute once the territory column is known. *)
Variables DataFrame Filters : Type.
Variable coverage_of :
  DataFrame -> string -> option Filters -> string -> string -> result DataFrame.
Variable missing_of :
  DataFrame -> string -> Z -> string -> option Filters -> string -> string ->
  result (string * Z * string * list text).

Definition compute_coverage (df : DataFrame) (level : string)
           (filters : option Filters) (expected : string) : result DataFrame :=
  territory_col <- _territory_col_for level ;;
  coverage_of df level filters expected territory_col.

Definition list_missing_territories (df : DataFrame) (variable : string)
           (year : Z) (level : string) (filters : option Filters)
           (expected : string) : result (string * Z * string * list text) :=
  territory_col <- _territory_col_for level ;;
  missing_of df variable year level filters expected territory_col.
End Completeness.

Arguments compute_coverage {DataFrame Filters} coverage_of df level filters expected.
Arguments list_missing_territories {DataFrame Filters} missing_of df variable year level
          filters expected.

(* ================================================================== *)
(** * Specification predicates *)
(* ================================================================== *)

(** The identities that respect the reference hierarchy: a province with
    the region that lists it and the macro-area of that region, a region
    with its macro-area, a macro-area, or nothing. *)
Inductive resolved : Territory -> Prop :=
| resolved_province (p reg mac : text) (ps : list text) :
    dict_get p PROVINCE_TO_REGION = Some reg ->
    dict_get reg REGION_TO_PROVINCES = Some ps ->
    In p ps ->
    dict_get reg REGION_TO_MACRO = Some mac ->
    resolved (mkTerritory province (Some p) (Some reg) (Some mac))
| resolved_region (reg mac : text) :
    In reg REGIONS ->
    dict_get reg REGION_TO_MACRO = Some mac ->
    resolved (mkTerritory region None (Some reg) (Some mac))
| resolved_macro (mac : text) :
    In mac MACROS ->
    resolved (mkTerritory macro None None (Some mac))
| resolved_unknown :
    resolved UNKNOWN.

(** Characters that normalization leaves alone: lower case, their own
    decomposition, no combining mark. *)
Definition stable_char (d : codepoint) : bool :=
  (lower_char d =? d)%N && text_eqb (nfkd_char d) [d] && negb (combining d).

(** Characters of a normalized token: stable, neither apostrophe nor
    dash, and no white space but the plain space. *)
Definition token_char (d : codepoint) : bool :=
  stable_char d && negb (is_apostrophe d) && negb (is_dash d)
  && (negb (is_space d) || (d =? SP)%N).

(** No two white characters in a row. *)
Fixpoint single_spaced (s : text) : bool :=
  match s with
  | c :: ((d :: _) as r) => negb (is_space c && is_space d) && single_spaced r
  | _ => true
  end.

(** No white character in front. *)
Definition no_lead (s : text) : bool :=
  match s with
  | c :: _ => negb (is_space c)
  | [] => true
  end.

(** A block [(i, j, k)] that lies in the window [alo .. hi) of [a]. *)
Definition block_within (alo hi : nat) (m : Match) : Prop :=
  (alo <= fst (fst m))%nat /\ (fst (fst m) + snd m <= hi)%nat.

(** A stage falls through or returns such an identity; it never raises. *)
Definition stage_ok (s : stage) : Prop :=
  s = Ok None \/ exists t, s = Ok (Some t) /\ resolved t.

(** A stage falls through or returns a record that satisfies [P]. *)
Definition stage_sat (P : Territory -> Prop) (s : stage) : Prop :=
  s = Ok None \/ exists t, s = Ok (Some t) /\ P t.

(** The names the reference lists know. *)
Definition canonical_name (v : text) : Prop :=
  In v ALL_PROVINCES \/ In v REGIONS \/ In v MACROS.

(** The name a record stands for: the field of its own level. *)
Definition most_specific (t : Territory) : option text :=
  match level t with
  | province => province_std t
  | region => region_std t
  | macro => macro_std t
  | unknown => None
  end.

(** [t[key]] on the dictionary that [standardize_territory] returns. *)
Definition territory_get (t : Territory) (key : string) : result (option text) :=
  if String.eqb key "level" then Ok (Some (utf8 (level_name (level t))))
  else if String.eqb key "province_std" then Ok (province_std t)
  else if String.eqb key "region_std" then Ok (region_std t)
  else if String.eqb key "macro_std" then Ok (macro_std t)
  else Raise KeyError.



(* ================================================================== *)
(** * Filters of the coverage functions ([completeness.py]) *)
(* ================================================================== *)

#[export] Instance string_Eqb : Eqb string := String.eqb.

Section ApplyFilters.
(** The [pandas] side: the column index of a frame, the selection
    [out[out[col].isin(allowed)]] and [df.copy()]. *)
Variables DataFrame Allowed : Type.
Variable columns : DataFrame -> list string.
Variable keep_isin : DataFrame -> string -> Allowed -> DataFrame.
Variable copy : DataFrame -> DataFrame.

(** [not filters] holds for [None] and for the empty dictionary. *)
Definition _apply_filters (df : DataFrame)
           (filters : option (dict string Allowed)) : DataFrame :=
  match filters with
  | None => df
  | Some [] => df
  | Some items =>
    fold_left (fun out ca =>
                 if existsb (String.eqb (fst ca)) (columns out)
                 then keep_isin out (fst ca) (snd ca)
                 else out)
              items (copy df)
  end.
End ApplyFilters.

Arguments _apply_filters {DataFrame Allowed} columns keep_isin copy df filters.

(* ================================================================== *)
(** * Sanity checks of the embedding *)
(* ================================================================== *)

Example utf8_u_umlaut :
  utf8 "Südtirol" = ([0x53; 0xFC; 0x64; 0x74; 0x69; 0x72; 0x6F; 0x6C])%N.
Proof. reflexivity. Qed.

Example utf8_right_quote : utf8 "d’a" = ([0x64; 0x2019; 0x61])%N.
Proof. reflexivity. Qed.

Example normalize_forli :
  base_normalize (utf8 "  Provincia  di   Forlì-Cesena ") = utf8 "forli cesena".
Proof. reflexivity. Qed.

Example normalize_aosta :
  base_normalize (utf8 "Valle d'Aosta/Vallée d'Aoste")
  = utf8 "valle d aosta/vallee d aoste".
Proof. reflexivity. Qed.

Example reference_sizes :
  (List.length REGIONS, List.length ALL_PROVINCES, List.length MACROS)
  = (20, 107, 5)%nat.
Proof. vm_compute. reflexivity. Qed.

Example scenario_reggio_emilia :
  standardize_territory (Some (utf8 "Reggio Emilia"))
  = Ok (mkTerritory province (Some (utf8 "Reggio nell'Emilia"))
                    (Some (utf8 "Emilia-Romagna")) (Some (utf8 "Nord-est"))).
Proof. vm_compute. reflexivity. Qed.

Example scenario_bat :
  standardize_territory (Some (utf8 "BAT"))
  = Ok (mkTerritory province (Some (utf8 "Barletta-Andria-Trani"))
                    (Some (utf8 "Puglia")) (Some (utf8 "Sud"))).
Proof. vm_compute. reflexivity. Qed.

Example scenario_trentino :
  standardize_territory (Some (utf8 "Trentino Alto Adige"))
  = Ok (mkTerritory region None (Some (utf8 "Trentino-Alto Adige/Südtirol"))
                    (Some (utf8 "Nord-est"))).
Proof. vm_compute. reflexivity. Qed.

(* ================================================================== *)
(** * Texts and dictionaries *)
(* ================================================================== *)

Lemma text_eqb_eq (s t : text) : text_eqb s t = true <-> s = t.
Proof.
  revert t; induction s as [|c s IH]; intros [|d t]; simpl;
    try (split; [discriminate | discriminate]); try tauto.
  rewrite andb_true_iff, N.eqb_eq, IH.
  split; [intros [-> ->]; reflexivity | intros E; inversion E; auto].
Qed.

Lemma text_eqb_refl (s : text) : text_eqb s s = true.
Proof. apply text_eqb_eq; reflexivity. Qed.

Lemma mem_In (x : text) (l : list text) : mem x l = true <-> In x l.
Proof.
  unfold mem. rewrite existsb_exists. split.
  - intros (y & Hy & E). apply text_eqb_eq in E. subst; assumption.
  - intros Hx. exists x. split; [assumption | apply text_eqb_refl].
Qed.

Section TextDict.
Context {V : Type}.
Implicit Type d : dict text V.

Lemma dict_get_In k d v : dict_get k d = Some v -> In (k, v) d.
Proof.
  induction d as [|[k' v'] d IH]; simpl; [discriminate|].
  unfold eqb_key, text_Eqb.
  destruct (text_eqb k k') eqn:E.
  - apply text_eqb_eq in E. intros [= ->]. subst. auto.
  - auto.
Qed.

Lemma dict_keys_get k d : In k (dict_keys d) -> exists v, dict_get k d = Some v.
Proof.
  induction d as [|[k' v'] d IH]; simpl; [tauto|].
  unfold eqb_key, text_Eqb.
  intros [E | Hin].
  - subst. rewrite text_eqb_refl. eauto.
  - destruct (text_eqb k k'); eauto.
Qed.

Lemma dict_mem_get k d : dict_mem k d = true -> exists v, dict_get k d = Some v.
Proof. unfold dict_mem. destruct (dict_get k d); [eauto | discriminate]. Qed.

Lemma subscript_get k d v : dict_get k d = Some v -> subscript d k = Ok v.
Proof. unfold subscript. intros ->. reflexivity. Qed.
End TextDict.

Lemma map_eq_pointwise {A B : Type} (f g : A -> B) (l : list A) :
  map f l = map g l -> forall x, In x l -> f x = g x.
Proof.
  induction l as [|a l IH]; simpl; [tauto|].
  intros E x [<- | Hx]; inversion E; auto.
Qed.

(* ================================================================== *)
(** * The similarity search returns candidates, and at most [n] of them *)
(* ================================================================== *)

Lemma insert_desc_In (x y : Q * text) (l : list (Q * text)) :
  In y (insert_desc x l) -> y = x \/ In y l.
Proof.
  induction l as [|z l IH]; simpl.
  - intros [<- | []]; auto.
  - destruct (scored_ltb z x); simpl.
    + intros [<- | H]; auto.
    + intros [<- | H]; auto. destruct (IH H); auto.
Qed.

Lemma sort_desc_In (l acc : list (Q * text)) (y : Q * text) :
  In y (fold_left (fun acc x => insert_desc x acc) l acc) -> In y l \/ In y acc.
Proof.
  revert acc; induction l as [|x l IH]; simpl; intros acc H; auto.
  destruct (IH _ H) as [H1 | H1]; auto.
  destruct (insert_desc_In _ _ _ H1) as [-> | H2]; auto.
Qed.

Lemma firstn_In (A : Type) (n : nat) (l : list A) (x : A) :
  In x (firstn n l) -> In x l.
Proof.
  revert l; induction n as [|n IH]; intros [|a l]; simpl; try tauto.
  intros [<- | H]; auto.
Qed.

Lemma nlargest_In (n : nat) (l : list (Q * text)) (y : Q * text) :
  In y (nlargest n l) -> In y l.
Proof.
  unfold nlargest. intros H. apply firstn_In in H.
  destruct (sort_desc_In _ _ _ H) as [H1 | []]; assumption.
Qed.

Lemma get_close_matches_incl word possibilities n cutoff hits :
  get_close_matches word possibilities n cutoff = Ok hits ->
  incl hits possibilities.
Proof.
  unfold get_close_matches.
  destruct (negb (0 <? n)%nat); [discriminate|].
  destruct (negb _); [discriminate|].
  intros [= <-] x Hx.
  apply in_map_iff in Hx. destruct Hx as ([q y] & <- & Hy).
  apply nlargest_In in Hy. apply in_flat_map in Hy.
  destruct Hy as (z & Hz & Hq).
  destruct (close_enough cutoff z word); simpl in Hq; [|tauto].
  destruct Hq as [[= _ <-] | []]. assumption.
Qed.

Lemma get_close_matches_length word possibilities n cutoff hits :
  get_close_matches word possibilities n cutoff = Ok hits ->
  (List.length hits <= n)%nat.
Proof.
  unfold get_close_matches.
  destruct (negb (0 <? n)%nat); [discriminate|].
  destruct (negb _); [discriminate|].
  intros [= <-]. rewrite length_map. unfold nlargest.
  apply firstn_le_length.
Qed.

(** [match_from_candidates] never raises, and what it returns is one of
    the candidates. *)
Lemma match_from_candidates_spec token candidates :
  match_from_candidates token candidates = Ok None
  \/ exists m, match_from_candidates token candidates = Ok (Some m)
               /\ In m candidates.
Proof.
  unfold match_from_candidates.
  destruct (get_close_matches token candidates 1 CUTOFF) as [hits|e] eqn:E.
  - simpl. destruct hits as [|m hits]; simpl; auto.
    right. exists m. split; [reflexivity|].
    apply (get_close_matches_incl _ _ _ _ _ E). simpl; auto.
  - exfalso. unfold get_close_matches in E. simpl in E. discriminate.
Qed.

(* ================================================================== *)
(** * The matching blocks never run out of fuel

    The longest block of a window of [a] lies inside the window, so the
    two windows that remain are strictly shorter: a fuel equal to the
    length of the window is enough, and more fuel changes nothing. *)
(* ================================================================== *)

Section ValueBound.
Context {K : Type} `{Eqb K}.

Lemma dict_set_bound (B : nat) (k : K) (v : nat) (d : dict K nat) :
  (v <= B)%nat ->
  Forall (fun kv => (snd kv <= B)%nat) d ->
  Forall (fun kv => (snd kv <= B)%nat) (dict_set k v d).
Proof.
  intros Hv. induction 1 as [|[k' v'] d Hk Hd IH]; cbn [dict_set].
  - constructor; [exact Hv | constructor].
  - destruct (eqb_key k k'); constructor; auto.
Qed.

Lemma dict_get_default_bound (B : nat) (k : K) (d : dict K nat) :
  Forall (fun kv => (snd kv <= B)%nat) d ->
  (dict_get_default k d O <= B)%nat.
Proof.
  unfold dict_get_default.
  induction 1 as [|[k' v'] d Hk Hd IH]; cbn [dict_get]; [lia|].
  destruct (eqb_key k k'); [exact Hk | exact IH].
Qed.
End ValueBound.

Lemma common_prefix_le (x y : text) : (common_prefix x y <= List.length x)%nat.
Proof.
  revert y; induction x as [|c x IH]; intros [|d y]; cbn [common_prefix List.length];
    try lia.
  destruct (N.eqb c d); [|lia]. specialize (IH y). lia.
Qed.

Lemma slice_length (a : text) (lo hi : nat) :
  (List.length (slice a lo hi) <= hi - lo)%nat.
Proof. unfold slice. apply firstn_le_length. Qed.

(** One row of the table: the lengths stay below the number of rows
    seen, and the best block stays within them. *)
Lemma flm_row_within (alo : nat) (js : list nat) (blo bhi i : nat)
      (j2len newj2len : dict nat nat) (best : Match) :
  (alo <= i)%nat ->
  Forall (fun kv => (snd kv <= i - alo)%nat) j2len ->
  Forall (fun kv => (snd kv <= S i - alo)%nat) newj2len ->
  block_within alo (S i) best ->
  Forall (fun kv => (snd kv <= S i - alo)%nat)
         (fst (flm_row js blo bhi i j2len newj2len best))
  /\ block_within alo (S i) (snd (flm_row js blo bhi i j2len newj2len best)).
Proof.
  intros Hi Hj. revert newj2len best.
  induction js as [|j js IH]; intros newj2len best Hn Hb; cbn [flm_row].
  - split; assumption.
  - destruct (j <? blo)%nat; [apply IH; assumption|].
    destruct (bhi <=? j)%nat; [split; assumption|].
    cbv zeta.
    remember (match j with
              | O => O
              | S j' => dict_get_default j' j2len O
              end + 1)%nat as k eqn:Ek.
    assert (Hk : (1 <= k <= S i - alo)%nat).
    { subst k. destruct j as [|j']; [lia|].
      pose proof (dict_get_default_bound (i - alo) j' j2len Hj). lia. }
    apply IH.
    + apply dict_set_bound; [lia | assumption].
    + destruct (snd best <? k)%nat; [|assumption].
      unfold block_within. cbn [fst snd]. lia.
Qed.

Lemma flm_fold_within (a : text) (b2j : dict codepoint (list nat))
      (alo blo bhi n i0 : nat) (st : dict nat nat * Match) :
  (alo <= i0)%nat ->
  Forall (fun kv => (snd kv <= i0 - alo)%nat) (fst st) ->
  block_within alo i0 (snd st) ->
  block_within alo (i0 + n)
    (snd (fold_left
            (fun st i =>
               flm_row (dict_get_default (nth i a 0%N) b2j []) blo bhi i
                       (fst st) [] (snd st))
            (seq i0 n) st)).
Proof.
  revert i0 st; induction n as [|n IH]; intros i0 st Hi Hj Hb;
    cbn [seq fold_left].
  - rewrite Nat.add_0_r. exact Hb.
  - replace (i0 + S n)%nat with (S i0 + n)%nat by lia.
    assert (Hb' : block_within alo (S i0) (snd st)).
    { destruct Hb as [H1 H2]. split; [exact H1 | lia]. }
    destruct (flm_row_within alo (dict_get_default (nth i0 a 0%N) b2j [])
                blo bhi i0 (fst st) [] (snd st) Hi Hj (Forall_nil _) Hb')
      as [R1 R2].
    apply IH; [lia | exact R1 | exact R2].
Qed.

Lemma find_longest_match_within (a b : text) (b2j : dict codepoint (list nat))
      (alo ahi blo bhi : nat) :
  (alo <= ahi)%nat ->
  block_within alo ahi (find_longest_match a b b2j alo ahi blo bhi).
Proof.
  intros Hle. unfold find_longest_match.
  assert (W : block_within alo ahi (snd (flm_rows a b2j alo ahi blo bhi))).
  { unfold flm_rows. replace ahi with (alo + (ahi - alo))%nat at 1 by lia.
    apply flm_fold_within; cbn [fst snd]; [lia | constructor |].
    split; cbn [fst snd]; lia. }
  destruct (snd (flm_rows a b2j alo ahi blo bhi)) as [[bi bj] bs].
  destruct W as [W1 W2]. cbn [fst snd] in W1, W2.
  pose proof (common_prefix_le (rev (slice a alo bi)) (rev (slice b blo bj))) as L.
  rewrite length_rev in L. pose proof (slice_length a alo bi) as L'.
  set (l := common_prefix (rev (slice a alo bi)) (rev (slice b blo bj))) in *.
  pose proof (common_prefix_le (slice a (bi - l + (bs + l)) ahi)
                               (slice b (bj - l + (bs + l)) bhi)) as R.
  pose proof (slice_length a (bi - l + (bs + l)) ahi) as R'.
  set (r := common_prefix (slice a (bi - l + (bs + l)) ahi)
                          (slice b (bj - l + (bs + l)) bhi)) in *.
  split; cbn [fst snd]; lia.
Qed.

Lemma matching_blocks_enough (n m : nat) (a b : text)
      (b2j : dict codepoint (list nat)) (alo ahi blo bhi : nat) :
  (alo <= ahi)%nat -> (ahi - alo <= n)%nat -> (ahi - alo <= m)%nat ->
  matching_blocks n a b b2j alo ahi blo bhi
  = matching_blocks m a b b2j alo ahi blo bhi.
Proof.
  revert m alo ahi blo bhi.
  induction n as [|n IH]; intros m alo ahi blo bhi Hle Hn Hm.
  - destruct m as [|m]; [reflexivity|]. cbn [matching_blocks].
    pose proof (find_longest_match_within a b b2j alo ahi blo bhi Hle) as W.
    destruct (find_longest_match a b b2j alo ahi blo bhi) as [[i j] k].
    destruct W as [W1 W2]. cbn [fst snd] in W1, W2.
    replace k with O by lia. reflexivity.
  - destruct m as [|m]; cbn [matching_blocks];
      pose proof (find_longest_match_within a b b2j alo ahi blo bhi Hle) as W;
      destruct (find_longest_match a b b2j alo ahi blo bhi) as [[i j] k];
      destruct W as [W1 W2]; cbn [fst snd] in W1, W2.
    + replace k with O by lia. reflexivity.
    + destruct (k =? 0)%nat eqn:Ek; [reflexivity|].
      apply Nat.eqb_neq in Ek.
      rewrite (IH m alo i blo j) by lia.
      rewrite (IH m (i + k)%nat ahi (j + k)%nat bhi) by lia.
      reflexivity.
Qed.

(** Any fuel from the length of [a] on gives the blocks of
    [get_matching_blocks]. *)
Lemma get_matching_blocks_fuel (a b : text) (fuel : nat) :
  (List.length a <= fuel)%nat ->
  matching_blocks fuel a b (chain_b b) 0 (List.length a) 0 (List.length b)
  = get_matching_blocks a b.
Proof.
  intros H. unfold get_matching_blocks.
  apply matching_blocks_enough; lia.
Qed.

(* ================================================================== *)
(** * The reference tables are closed under the hierarchy *)
(* ================================================================== *)

Lemma province_to_region_sound (p reg : text) :
  dict_get p PROVINCE_TO_REGION = Some reg ->
  exists ps mac,
    dict_get reg REGION_TO_PROVINCES = Some ps /\ In p ps
    /\ dict_get reg REGION_TO_MACRO = Some mac.
Proof.
  intros H. apply dict_get_In in H.
  assert (F : forallb (fun pr =>
                match dict_get (snd pr) REGION_TO_PROVINCES,
                      dict_get (snd pr) REGION_TO_MACRO with
                | Some ps, Some _ => mem (fst pr) ps
                | _, _ => false
                end) PROVINCE_TO_REGION = true) by (vm_compute; reflexivity).
  rewrite forallb_forall in F. specialize (F _ H). cbn [fst snd] in F.
  destruct (dict_get reg REGION_TO_PROVINCES) as [ps|]; [|discriminate].
  destruct (dict_get reg REGION_TO_MACRO) as [mac|]; [|discriminate].
  exists ps, mac. rewrite mem_In in F. auto.
Qed.

Lemma region_to_macro_total (reg : text) :
  In reg REGIONS -> exists mac, dict_get reg REGION_TO_MACRO = Some mac.
Proof.
  intros H.
  assert (F : forallb (fun r => dict_mem r REGION_TO_MACRO) REGIONS = true)
    by (vm_compute; reflexivity).
  rewrite forallb_forall in F. apply dict_mem_get. auto.
Qed.

Lemma norm_prov_values (k p : text) :
  dict_get k NORM_PROV = Some p ->
  exists reg, dict_get p PROVINCE_TO_REGION = Some reg.
Proof.
  intros H. apply dict_get_In in H.
  assert (F : forallb (fun kp => dict_mem (snd kp) PROVINCE_TO_REGION)
                      NORM_PROV = true) by (vm_compute; reflexivity).
  rewrite forallb_forall in F. apply dict_mem_get. apply (F _ H).
Qed.

Lemma norm_reg_values (k r : text) :
  dict_get k NORM_REG = Some r -> In r REGIONS.
Proof.
  intros H. apply dict_get_In in H.
  assert (F : forallb (fun kr => mem (snd kr) REGIONS) NORM_REG = true)
    by (vm_compute; reflexivity).
  rewrite forallb_forall in F. apply mem_In. apply (F _ H).
Qed.

Lemma norm_mac_values (k m : text) :
  dict_get k NORM_MAC = Some m -> In m MACROS.
Proof.
  intros H. apply dict_get_In in H.
  assert (F : forallb (fun km => mem (snd km) MACROS) NORM_MAC = true)
    by (vm_compute; reflexivity).
  rewrite forallb_forall in F. apply mem_In. apply (F _ H).
Qed.

(* ================================================================== *)
(** * Every stage returns an identity of the hierarchy or falls through *)
(* ================================================================== *)

Lemma province_record_resolved (p reg : text) :
  dict_get p PROVINCE_TO_REGION = Some reg ->
  exists mac,
    (r <- subscript PROVINCE_TO_REGION p ;;
     mac <- subscript REGION_TO_MACRO r ;;
     Ok (Some (mkTerritory province (Some p) (Some r) (Some mac))))
    = Ok (Some (mkTerritory province (Some p) (Some reg) (Some mac)))
    /\ dict_get reg REGION_TO_MACRO = Some mac
    /\ resolved (mkTerritory province (Some p) (Some reg) (Some mac)).
Proof.
  intros H.
  destruct (province_to_region_sound _ _ H) as (ps & mac & Hps & Hin & Hmac).
  exists mac. unfold subscript. rewrite H. cbn [bind]. rewrite Hmac. cbn [bind].
  split; [reflexivity | split; [reflexivity | econstructor; eassumption]].
Qed.

Lemma region_record_resolved (reg : text) :
  In reg REGIONS ->
  exists mac,
    (mac <- subscript REGION_TO_MACRO reg ;;
     Ok (Some (mkTerritory region None (Some reg) (Some mac))))
    = Ok (Some (mkTerritory region None (Some reg) (Some mac)))
    /\ dict_get reg REGION_TO_MACRO = Some mac
    /\ resolved (mkTerritory region None (Some reg) (Some mac)).
Proof.
  intros H. destruct (region_to_macro_total _ H) as (mac & Hmac).
  exists mac. unfold subscript. rewrite Hmac. cbn [bind].
  split; [reflexivity | split; [reflexivity | constructor; assumption]].
Qed.

Lemma alias_pass_ok (tok : text) : stage_ok (alias_pass tok).
Proof.
  unfold alias_pass, stage_ok.
  destruct (dict_get tok NORM_ALIAS) as [canonical|]; [|auto].
  destruct (dict_mem canonical PROVINCE_TO_REGION) eqn:Ep.
  - apply dict_mem_get in Ep. destruct Ep as (reg & Hreg).
    destruct (province_record_resolved _ _ Hreg) as (mac & -> & _ & R). eauto.
  - destruct (mem canonical REGIONS) eqn:Er.
    + apply mem_In in Er.
      destruct (region_record_resolved _ Er) as (mac & -> & _ & R). eauto.
    + destruct (mem canonical MACROS) eqn:Em; [|auto].
      apply mem_In in Em. right. eexists. split; [reflexivity|].
      constructor. assumption.
Qed.

Lemma province_of_key_ok (key p : text) :
  dict_get key NORM_PROV = Some p ->
  exists reg mac,
    province_of_key key
    = Ok (Some (mkTerritory province (Some p) (Some reg) (Some mac)))
    /\ resolved (mkTerritory province (Some p) (Some reg) (Some mac)).
Proof.
  intros H. unfold province_of_key.
  rewrite (subscript_get _ _ _ H). cbn [bind].
  destruct (norm_prov_values _ _ H) as (reg & Hreg).
  destruct (province_record_resolved _ _ Hreg) as (mac & E & _ & R).
  exists reg, mac. split; assumption.
Qed.

Lemma region_of_key_ok (key r : text) :
  dict_get key NORM_REG = Some r ->
  exists mac,
    region_of_key key
    = Ok (Some (mkTerritory region None (Some r) (Some mac)))
    /\ resolved (mkTerritory region None (Some r) (Some mac)).
Proof.
  intros H. unfold region_of_key.
  rewrite (subscript_get _ _ _ H). cbn [bind].
  destruct (region_record_resolved _ (norm_reg_values _ _ H)) as (mac & E & _ & R).
  exists mac. split; assumption.
Qed.

Lemma macro_of_key_ok (key m : text) :
  dict_get key NORM_MAC = Some m ->
  macro_of_key key = Ok (Some (mkTerritory macro None None (Some m)))
  /\ resolved (mkTerritory macro None None (Some m)).
Proof.
  intros H. unfold macro_of_key.
  rewrite (subscript_get _ _ _ H). cbn [bind].
  split; [reflexivity | constructor; apply (norm_mac_values _ _ H)].
Qed.

Lemma exact_pass_ok (tok : text) : stage_ok (exact_pass tok).
Proof.
  unfold exact_pass, stage_ok.
  destruct (dict_mem tok NORM_PROV) eqn:Ep.
  { apply dict_mem_get in Ep. destruct Ep as (p & Hp).
    destruct (province_of_key_ok _ _ Hp) as (reg & mac & -> & R). eauto. }
  destruct (dict_mem tok NORM_REG) eqn:Er.
  { apply dict_mem_get in Er. destruct Er as (r & Hr).
    destruct (region_of_key_ok _ _ Hr) as (mac & -> & R). eauto. }
  destruct (dict_mem tok NORM_MAC) eqn:Em; [|auto].
  apply dict_mem_get in Em. destruct Em as (m & Hm).
  destruct (macro_of_key_ok _ _ Hm) as (-> & R). eauto.
Qed.

(** One tier of the close-match stage: the candidate found, if it is a
    non-empty string, is a key of the tier's table. *)
Lemma fuzzy_tier_ok (tok : text) (cands : list text)
      (found : text -> stage) (next : stage) :
  (forall k, In k cands -> stage_ok (found k)) ->
  stage_ok next ->
  stage_ok (m <- match_from_candidates tok cands ;;
            if truthy m
            then found (match m with Some k => k | None => [] end)
            else next).
Proof.
  intros Hfound Hnext.
  destruct (match_from_candidates_spec tok cands) as [-> | (k & -> & Hk)];
    cbn [bind truthy]; [exact Hnext|].
  destruct k as [|c k]; [exact Hnext|].
  exact (Hfound _ Hk).
Qed.

Lemma fuzzy_pass_ok (tok : text) : stage_ok (fuzzy_pass tok).
Proof.
  unfold fuzzy_pass.
  apply (fuzzy_tier_ok tok (dict_keys NORM_PROV) province_of_key).
  { intros k Hk. apply dict_keys_get in Hk. destruct Hk as (p & Hp).
    destruct (province_of_key_ok _ _ Hp) as (reg & mac & E & R).
    right. eexists. split; eassumption. }
  apply (fuzzy_tier_ok tok (dict_keys NORM_REG) region_of_key).
  { intros k Hk. apply dict_keys_get in Hk. destruct Hk as (r & Hr).
    destruct (region_of_key_ok _ _ Hr) as (mac & E & R).
    right. eexists. split; eassumption. }
  apply (fuzzy_tier_ok tok (dict_keys NORM_MAC) macro_of_key).
  { intros k Hk. apply dict_keys_get in Hk. destruct Hk as (m & Hm).
    destruct (macro_of_key_ok _ _ Hm) as (E & R).
    right. eexists. split; eassumption. }
  left. reflexivity.
Qed.

Lemma aosta_resolved : resolved AOSTA.
Proof.
  unfold AOSTA. constructor.
  - apply mem_In. vm_compute. reflexivity.
  - vm_compute. reflexivity.
Qed.

Lemma aosta_pass_ok (tok : text) : stage_ok (aosta_pass tok).
Proof.
  unfold aosta_pass, stage_ok.
  destruct (contains (utf8 "aosta") tok); [|auto].
  right. exists AOSTA. split; [reflexivity | apply aosta_resolved].
Qed.

Lemma or_else_ok (s next : stage) :
  stage_ok s -> stage_ok next -> stage_ok (or_else s next).
Proof.
  unfold or_else. intros [-> | (t & -> & R)] Hn; cbn [bind]; [assumption|].
  right. eauto.
Qed.

(** Totality: every token resolves, without an exception, to an identity
    of the hierarchy. *)
Lemma resolve_token_resolved (tok : text) :
  exists t, resolve_token tok = Ok t /\ resolved t.
Proof.
  unfold resolve_token.
  assert (H : stage_ok (or_else (alias_pass tok)
                 (or_else (exact_pass tok)
                    (or_else (fuzzy_pass tok) (aosta_pass tok))))).
  { apply or_else_ok; [apply alias_pass_ok|].
    apply or_else_ok; [apply exact_pass_ok|].
    apply or_else_ok; [apply fuzzy_pass_ok | apply aosta_pass_ok]. }
  destruct H as [-> | (t & -> & R)]; cbn [bind].
  - exists UNKNOWN. split; [reflexivity | constructor].
  - eauto.
Qed.

Lemma standardize_territory_resolved (raw : option text) :
  exists t, standardize_territory raw = Ok t /\ resolved t.
Proof.
  destruct raw as [raw|]; cbn [standardize_territory].
  - apply resolve_token_resolved.
  - exists UNKNOWN. split; [reflexivity | constructor].
Qed.

(* ================================================================== *)
(** * Canonical names resolve to themselves *)
(* ================================================================== *)

Lemma alias_hit_decides (tok : text) (t : Territory) :
  alias_pass tok = Ok (Some t) -> resolve_token tok = Ok t.
Proof. unfold resolve_token, or_else. intros ->. reflexivity. Qed.

Lemma self_province (n : text) :
  In n ALL_PROVINCES ->
  exists reg mac,
    dict_get n PROVINCE_TO_REGION = Some reg
    /\ dict_get reg REGION_TO_MACRO = Some mac
    /\ resolve_token (base_normalize n)
       = Ok (mkTerritory province (Some n) (Some reg) (Some mac)).
Proof.
  intros Hn.
  assert (M : forallb (fun p => dict_mem p PROVINCE_TO_REGION) ALL_PROVINCES
              = true) by (vm_compute; reflexivity).
  rewrite forallb_forall in M.
  destruct (dict_mem_get _ _ (M _ Hn)) as (reg & Hreg).
  destruct (province_record_resolved _ _ Hreg) as (mac & E & Hmac & _).
  assert (F : map (fun p => alias_pass (base_normalize p)) ALL_PROVINCES
              = map (fun p =>
                       r <- subscript PROVINCE_TO_REGION p ;;
                       mac <- subscript REGION_TO_MACRO r ;;
                       Ok (Some (mkTerritory province (Some p) (Some r) (Some mac))))
                    ALL_PROVINCES)
    by (vm_compute; reflexivity).
  pose proof (map_eq_pointwise _ _ _ F n Hn) as P. cbv beta in P.
  rewrite E in P.
  exists reg, mac.
  split; [exact Hreg | split; [exact Hmac | exact (alias_hit_decides _ _ P)]].
Qed.

Lemma self_region (n : text) :
  In n REGIONS ->
  exists mac,
    dict_get n REGION_TO_MACRO = Some mac
    /\ resolve_token (base_normalize n)
       = Ok (mkTerritory region None (Some n) (Some mac)).
Proof.
  intros Hn.
  destruct (region_record_resolved _ Hn) as (mac & E & Hmac & _).
  assert (F : map (fun r => alias_pass (base_normalize r)) REGIONS
              = map (fun r =>
                       mac <- subscript REGION_TO_MACRO r ;;
                       Ok (Some (mkTerritory region None (Some r) (Some mac))))
                    REGIONS)
    by (vm_compute; reflexivity).
  pose proof (map_eq_pointwise _ _ _ F n Hn) as P. cbv beta in P.
  rewrite E in P.
  exists mac. split; [exact Hmac | exact (alias_hit_decides _ _ P)].
Qed.

Lemma self_macro (n : text) :
  In n MACROS ->
  resolve_token (base_normalize n) = Ok (mkTerritory macro None None (Some n)).
Proof.
  intros Hn.
  assert (F : map (fun m => alias_pass (base_normalize m)) MACROS
              = map (fun m => Ok (Some (mkTerritory macro None None (Some m)))) MACROS)
    by (vm_compute; reflexivity).
  apply alias_hit_decides. apply (map_eq_pointwise _ _ _ F n Hn).
Qed.

(** C1 (self-resolution).  The reference lists hold 20 regions, 107
    provinces and 5 macro-areas, and on each of their names
    [standardize_territory] returns the level of the list the name comes
    from: a province comes back with itself, [PROVINCE_TO_REGION] of it
    and [REGION_TO_MACRO] of that region; a region with itself and its
    [REGION_TO_MACRO]; a macro-area with itself. *)
Theorem C1_self_resolution :
  (List.length REGIONS, List.length ALL_PROVINCES, List.length MACROS)
  = (20, 107, 5)%nat
  /\ forall n : text,
      (In n ALL_PROVINCES ->
       exists reg mac,
         dict_get n PROVINCE_TO_REGION = Some reg
         /\ dict_get reg REGION_TO_MACRO = Some mac
         /\ standardize_territory (Some n)
            = Ok (mkTerritory province (Some n) (Some reg) (Some mac)))
      /\ (In n REGIONS ->
          exists mac,
            dict_get n REGION_TO_MACRO = Some mac
            /\ standardize_territory (Some n)
               = Ok (mkTerritory region None (Some n) (Some mac)))
      /\ (In n MACROS ->
          standardize_territory (Some n)
          = Ok (mkTerritory macro None None (Some n))).
Proof.
  split; [vm_compute; reflexivity|].
  intros n. cbn [standardize_territory].
  split; [apply self_province | split; [apply self_region | apply self_macro]].
Qed.

Lemma C1_self_resolution_witness :
  In (utf8 "Forlì-Cesena") ALL_PROVINCES
  /\ exists reg mac,
       dict_get (utf8 "Forlì-Cesena") PROVINCE_TO_REGION = Some reg
       /\ dict_get reg REGION_TO_MACRO = Some mac
       /\ standardize_territory (Some (utf8 "Forlì-Cesena"))
          = Ok (mkTerritory province (Some (utf8 "Forlì-Cesena"))
                            (Some reg) (Some mac)).
Proof.
  assert (H : In (utf8 "Forlì-Cesena") ALL_PROVINCES)
    by (apply mem_In; vm_compute; reflexivity).
  split; [exact H|].
  exact (proj1 (proj2 C1_self_resolution (utf8 "Forlì-Cesena")) H).
Defined.

(* ================================================================== *)
(** * Hierarchy consistency and field presence *)
(* ================================================================== *)

(** C3 (hierarchy consistency).  Whenever [standardize_territory] returns
    a record of level [province], its region is
    [PROVINCE_TO_REGION[province_std]], that region lists the province in
    [REGION_TO_PROVINCES], and its macro-area is
    [REGION_TO_MACRO[region_std]]. *)
Theorem C3_hierarchy_consistency (raw : option text) (t : Territory) :
  standardize_territory raw = Ok t ->
  level t = province ->
  exists p reg mac ps,
    province_std t = Some p /\ region_std t = Some reg /\ macro_std t = Some mac
    /\ dict_get p PROVINCE_TO_REGION = Some reg
    /\ dict_get reg REGION_TO_PROVINCES = Some ps /\ In p ps
    /\ dict_get reg REGION_TO_MACRO = Some mac.
Proof.
  intros E L.
  destruct (standardize_territory_resolved raw) as (t' & E' & R).
  rewrite E in E'. injection E' as <-.
  inversion R as [p reg mac ps H1 H2 H3 H4 Ht | reg mac _ _ Ht | mac _ Ht | Ht];
    subst t; try discriminate L.
  exists p, reg, mac, ps.
  cbn [province_std region_std macro_std]. repeat split; assumption.
Qed.

Lemma C3_hierarchy_consistency_witness :
  exists p reg mac ps,
    Some (utf8 "Napoli") = Some p
    /\ Some (utf8 "Campania") = Some reg /\ Some (utf8 "Sud") = Some mac
    /\ dict_get p PROVINCE_TO_REGION = Some reg
    /\ dict_get reg REGION_TO_PROVINCES = Some ps /\ In p ps
    /\ dict_get reg REGION_TO_MACRO = Some mac.
Proof.
  apply (C3_hierarchy_consistency
           (Some (utf8 "provincia di Napoli"))
           (mkTerritory province (Some (utf8 "Napoli"))
                        (Some (utf8 "Campania")) (Some (utf8 "Sud")))).
  - vm_compute. reflexivity.
  - reflexivity.
Defined.

(** C7 (field presence).  Every input, [None] included, yields a record,
    in which [province_std] is present exactly at level [province],
    [region_std] exactly at levels [province] and [region], [macro_std]
    exactly at levels [province], [region] and [macro]; at level
    [unknown] the three fields are absent. *)
Theorem C7_field_presence (raw : option text) :
  exists t,
    standardize_territory raw = Ok t
    /\ (province_std t <> None <-> level t = province)
    /\ (region_std t <> None <-> (level t = province \/ level t = region))
    /\ (macro_std t <> None
        <-> (level t = province \/ level t = region \/ level t = macro))
    /\ (level t = unknown ->
        province_std t = None /\ region_std t = None /\ macro_std t = None).
Proof.
  destruct (standardize_territory_resolved raw) as (t & E & R).
  exists t. split; [exact E|].
  destruct R; cbn; repeat split; intros; auto;
    try discriminate; try congruence;
    repeat match goal with
           | H : _ \/ _ |- _ => destruct H
           end; try discriminate; try congruence.
Qed.

(* ================================================================== *)
(** * Priority of provinces, unknown inputs, manual aliases *)
(* ================================================================== *)

(** C4 (priority of provinces).  An input whose normalized token is the
    normalized form of a canonical province name is resolved at level
    [province] (to that very province), never [region] or [macro]. *)
Theorem C4_province_priority (raw p : text) :
  In p ALL_PROVINCES ->
  base_normalize raw = base_normalize p ->
  exists t,
    standardize_territory (Some raw) = Ok t
    /\ level t = province /\ province_std t = Some p.
Proof.
  intros Hp E. cbn [standardize_territory]. rewrite E.
  destruct (self_province _ Hp) as (reg & mac & _ & _ & ->).
  eexists. split; [reflexivity | split; reflexivity].
Qed.

Lemma C4_province_priority_witness :
  exists t,
    standardize_territory (Some (utf8 "Città Metropolitana di  REGGIO-CALABRIA")) = Ok t
    /\ level t = province /\ province_std t = Some (utf8 "Reggio Calabria").
Proof.
  apply (C4_province_priority
           (utf8 "Città Metropolitana di  REGGIO-CALABRIA")
           (utf8 "Reggio Calabria")).
  - apply mem_In. vm_compute. reflexivity.
  - vm_compute. reflexivity.
Defined.

(** C5 (unknown boundary).  [None], the empty string and
    ["Xyzzy Nonexistent"] each return, without an exception, the record
    of level [unknown] whose three fields are [None]. *)
Theorem C5_unknown_boundary :
  standardize_territory None = Ok (mkTerritory unknown None None None)
  /\ standardize_territory (Some (utf8 ""))
     = Ok (mkTerritory unknown None None None)
  /\ standardize_territory (Some (utf8 "Xyzzy Nonexistent"))
     = Ok (mkTerritory unknown None None None).
Proof. repeat split; vm_compute; reflexivity. Qed.

(** C6 (alias coverage).  For every entry of [CANONICAL_TO_ALIASES] and
    every variant listed in it, the variant and the canonical name get
    the same record, which is not of level [unknown]. *)
Theorem C6_alias_coverage (canonical : text) (variants : list text) (a : text) :
  In (canonical, variants) CANONICAL_TO_ALIASES ->
  In a variants ->
  exists t,
    standardize_territory (Some canonical) = Ok t
    /\ standardize_territory (Some a) = Ok t
    /\ level t <> unknown.
Proof.
  intros Hc Ha.
  pose (pairs := flat_map (fun cv => map (fun v => (fst cv, v)) (snd cv))
                          CANONICAL_TO_ALIASES).
  assert (Hin : In (canonical, a) pairs).
  { apply in_flat_map. exists (canonical, variants). split; [exact Hc|].
    apply in_map_iff. exists a. split; [reflexivity | exact Ha]. }
  assert (F : map (fun ca => alias_pass (base_normalize (snd ca))) pairs
              = map (fun ca => alias_pass (base_normalize (fst ca))) pairs)
    by (vm_compute; reflexivity).
  assert (G : forallb (fun ca => match alias_pass (base_normalize (fst ca)) with
                                 | Ok (Some t) =>
                                   match level t with unknown => false | _ => true end
                                 | _ => false
                                 end) pairs = true)
    by (vm_compute; reflexivity).
  pose proof (map_eq_pointwise _ _ _ F _ Hin) as P. cbn [fst snd] in P.
  rewrite forallb_forall in G. specialize (G _ Hin). cbn [fst snd] in G.
  destruct (alias_pass (base_normalize canonical)) as [[t|]|] eqn:E;
    try discriminate G.
  exists t. cbn [standardize_territory].
  rewrite (alias_hit_decides _ _ E), (alias_hit_decides _ _ P).
  split; [reflexivity | split; [reflexivity|]].
  intros L. rewrite L in G. discriminate G.
Qed.

Lemma C6_alias_coverage_witness :
  exists t,
    standardize_territory (Some (utf8 "Barletta-Andria-Trani")) = Ok t
    /\ standardize_territory (Some (utf8 "b.a.t.")) = Ok t
    /\ level t <> unknown.
Proof.
  apply (C6_alias_coverage
           (utf8 "Barletta-Andria-Trani")
           (map utf8 ["barletta andria trani"; "bat"; "b.a.t."]%string)
           (utf8 "b.a.t.")).
  - vm_compute. tauto.
  - vm_compute. tauto.
Defined.

(* ================================================================== *)
(** * The close-match and the Aosta stages *)
(* ================================================================== *)

(** C8 (typo).  ["Bolgna"] normalizes to ["bolgna"], which neither the
    alias pass nor the exact pass knows; its similarity to ["bologna"]
    is 12/13, above the cutoff 9/10, and the close-match on the province
    keys returns ["bologna"], so that the result is the province Bologna
    of Emilia-Romagna (Nord-est).  A search with [n = 1] never returns
    more than one candidate. *)
Theorem C8_bolgna :
  base_normalize (utf8 "Bolgna") = utf8 "bolgna"
  /\ alias_pass (utf8 "bolgna") = Ok None
  /\ exact_pass (utf8 "bolgna") = Ok None
  /\ ratio (utf8 "bologna") (utf8 "bolgna") = 12 # 13
  /\ Qle_bool CUTOFF (ratio (utf8 "bologna") (utf8 "bolgna")) = true
  /\ CUTOFF = 9 # 10
  /\ match_from_candidates (utf8 "bolgna") (dict_keys NORM_PROV)
     = Ok (Some (utf8 "bologna"))
  /\ standardize_territory (Some (utf8 "Bolgna"))
     = Ok (mkTerritory province (Some (utf8 "Bologna"))
                       (Some (utf8 "Emilia-Romagna")) (Some (utf8 "Nord-est")))
  /\ forall (word : text) (possibilities : list text) (cutoff : Q),
       match get_close_matches word possibilities 1 cutoff with
       | Ok hits => (List.length hits <= 1)%nat
       | Raise _ => True
       end.
Proof.
  repeat (split; [vm_compute; reflexivity|]).
  intros word possibilities cutoff.
  destruct (get_close_matches word possibilities 1 cutoff) as [hits|e] eqn:E;
    [|exact I].
  exact (get_close_matches_length _ _ _ _ _ E).
Qed.

(** C9 (Aosta heuristic).  When the alias pass, the exact pass and the
    close-match pass all fall through and the token contains ["aosta"],
    the result is the region "Valle d'Aosta/Vallée d'Aoste" in
    "Nord-ovest"; ["valle d'aosta"] and ["Valle dAosta"] both return that
    identity. *)
Theorem C9_aosta_heuristic :
  (forall raw : text,
      alias_pass (base_normalize raw) = Ok None ->
      exact_pass (base_normalize raw) = Ok None ->
      fuzzy_pass (base_normalize raw) = Ok None ->
      contains (utf8 "aosta") (base_normalize raw) = true ->
      standardize_territory (Some raw)
      = Ok (mkTerritory region None
                        (Some (utf8 "Valle d'Aosta/Vallée d'Aoste"))
                        (Some (utf8 "Nord-ovest"))))
  /\ standardize_territory (Some (utf8 "valle d'aosta"))
     = Ok (mkTerritory region None
                       (Some (utf8 "Valle d'Aosta/Vallée d'Aoste"))
                       (Some (utf8 "Nord-ovest")))
  /\ standardize_territory (Some (utf8 "Valle dAosta"))
     = Ok (mkTerritory region None
                       (Some (utf8 "Valle d'Aosta/Vallée d'Aoste"))
                       (Some (utf8 "Nord-ovest"))).
Proof.
  split; [|split; vm_compute; reflexivity].
  intros raw Ha He Hf Hc.
  cbn [standardize_territory]. unfold resolve_token, or_else.
  rewrite Ha. cbn [bind]. rewrite He. cbn [bind]. rewrite Hf. cbn [bind].
  unfold aosta_pass. rewrite Hc. reflexivity.
Qed.

Lemma C9_aosta_heuristic_witness :
  standardize_territory (Some (utf8 "Citta di Aosta (AO)"))
  = Ok (mkTerritory region None
                    (Some (utf8 "Valle d'Aosta/Vallée d'Aoste"))
                    (Some (utf8 "Nord-ovest"))).
Proof.
  apply (proj1 C9_aosta_heuristic (utf8 "Citta di Aosta (AO)"));
    vm_compute; reflexivity.
Defined.

(* ================================================================== *)
(** * The coverage functions reject every level but the two they know *)
(* ================================================================== *)

(** C10 (level guard).  For a level other than ["province"] and
    ["region"], ["macro"] for one, [compute_coverage] and
    [list_missing_territories] raise the [ValueError] of
    [_territory_col_for] whatever the rest of their computation is. *)
Theorem C10_level_guard
        (DataFrame Filters : Type)
        (coverage_of : DataFrame -> string -> option Filters -> string ->
                       string -> result DataFrame)
        (missing_of : DataFrame -> string -> Z -> string -> option Filters ->
                      string -> string ->
                      result (string * Z * string * list text))
        (df : DataFrame) (variable : string) (year : Z) (lvl : string)
        (filters : option Filters) (expected : string) :
  lvl <> "province"%string ->
  lvl <> "region"%string ->
  compute_coverage coverage_of df lvl filters expected
  = Raise (ValueError "level must be 'province' or 'region'")
  /\ list_missing_territories missing_of df variable year lvl filters expected
     = Raise (ValueError "level must be 'province' or 'region'").
Proof.
  intros Hp Hr.
  apply String.eqb_neq in Hp. apply String.eqb_neq in Hr.
  unfold compute_coverage, list_missing_territories, _territory_col_for.
  rewrite Hp, Hr. split; reflexivity.
Qed.

Lemma C10_level_guard_witness :
  compute_coverage (fun (df : unit) _ (_ : option unit) _ _ => Ok df)
                   tt (level_name macro) None "all"%string
  = Raise (ValueError "level must be 'province' or 'region'")
  /\ list_missing_territories
       (fun (_ : unit) v y l (_ : option unit) _ _ => Ok (v, y, l, []))
       tt "income"%string 2020%Z (level_name macro) None "all"%string
     = Raise (ValueError "level must be 'province' or 'region'").
Proof.
  apply (C10_level_guard unit unit
           (fun (df : unit) _ (_ : option unit) _ _ => Ok df)
           (fun (_ : unit) v y l (_ : option unit) _ _ => Ok (v, y, l, []))
           tt "income"%string 2020%Z (level_name macro) None "all"%string);
    discriminate.
Defined.

(* ================================================================== *)
(** * Normalization: where it is idempotent and where it is not *)
(* ================================================================== *)

Lemma forall_range (P : N -> bool) (lo : N) (len : nat) :
  forallb P (map (fun i => (lo + N.of_nat i)%N) (seq 0 len)) = true ->
  forall c, (lo <= c)%N -> (c < lo + N.of_nat len)%N -> P c = true.
Proof.
  intros F c H1 H2. rewrite forallb_forall in F. apply F.
  apply in_map_iff. exists (N.to_nat (c - lo)).
  split; [lia | apply in_seq; lia].
Qed.

(** On the repertoire, what is left of a lower-cased character after
    decomposition and removal of the marks is stable. *)
Lemma covered_decomposition (c : codepoint) :
  covered_char c = true ->
  forallb stable_char
          (filter (fun d => negb (combining d)) (nfkd_char (lower_char c)))
  = true.
Proof.
  set (check := fun c => forallb stable_char
         (filter (fun d => negb (combining d)) (nfkd_char (lower_char c)))).
  change (covered_char c = true -> check c = true).
  unfold covered_char. rewrite !orb_true_iff, andb_true_iff.
  rewrite N.ltb_lt, !N.leb_le, !N.eqb_eq.
  intros [[[[H | [H1 H2]] | ->] | ->] | ->].
  - apply (forall_range check 0 256); [vm_compute; reflexivity | lia | lia].
  - apply (forall_range check 0x300 112); [vm_compute; reflexivity | lia | lia].
  - vm_compute; reflexivity.
  - vm_compute; reflexivity.
  - vm_compute; reflexivity.
Qed.

Lemma lstrip_In (x : text) (d : codepoint) : In d (lstrip x) -> In d x.
Proof.
  induction x as [|c x IH]; simpl; [tauto|].
  destruct (is_space c); simpl; auto.
Qed.

Lemma rstrip_In (x : text) (d : codepoint) : In d (rstrip x) -> In d x.
Proof.
  induction x as [|c x IH]; simpl; [tauto|].
  destruct (rstrip x) as [|e t].
  - destruct (is_space c); simpl; tauto.
  - simpl. intros [-> | H]; auto.
Qed.

Lemma strip_In (x : text) (d : codepoint) : In d (strip x) -> In d x.
Proof. unfold strip. intros H. apply lstrip_In, rstrip_In, H. Qed.

Lemma starts_with_In (p x r : text) (d : codepoint) :
  starts_with p x = Some r -> In d r -> In d x.
Proof.
  revert x; induction p as [|c p IH]; intros x; simpl.
  - intros [= ->]. auto.
  - destruct x as [|e x]; [discriminate|].
    destruct (N.eqb c e); [|discriminate].
    intros H Hd. right. eapply IH; eassumption.
Qed.

Lemma match_prefix_In (p x r : text) (d : codepoint) :
  match_prefix p x = Some r -> In d r -> In d x.
Proof.
  unfold match_prefix.
  destruct (starts_with p x) as [[|c q]|] eqn:E; try discriminate.
  destruct (is_space c); [|discriminate].
  intros [= <-] Hd. apply lstrip_In in Hd.
  eapply starts_with_In; [exact E | right; exact Hd].
Qed.

Lemma match_any_prefix_In (ps : list text) (x r : text) (d : codepoint) :
  match_any_prefix ps x = Some r -> In d r -> In d x.
Proof.
  induction ps as [|p ps IH]; simpl; [discriminate|].
  destruct (match_prefix p x) as [q|] eqn:E.
  - intros [= <-]. eapply match_prefix_In; eassumption.
  - exact IH.
Qed.

Lemma sub_legal_prefix_In (x : text) (d : codepoint) :
  In d (sub_legal_prefix x) -> In d x.
Proof.
  unfold sub_legal_prefix.
  destruct (match_any_prefix LEGAL_PREFIXES x) as [r|] eqn:E; [|auto].
  eapply match_any_prefix_In; eassumption.
Qed.

Lemma sub_class_In (cls : codepoint -> bool) (x : text) (d : codepoint) :
  In d (sub_class cls x) -> d = SP \/ (In d x /\ cls d = false).
Proof.
  unfold sub_class. intros H. apply in_map_iff in H.
  destruct H as (c & E & Hc). destruct (cls c) eqn:C.
  - left. symmetry. exact E.
  - right. subst d. auto.
Qed.

Lemma sub_ws_runs_In (b : bool) (x : text) (d : codepoint) :
  In d (sub_ws_runs b x) -> d = SP \/ (In d x /\ is_space d = false).
Proof.
  revert b; induction x as [|c x IH]; intros b; simpl; [tauto|].
  destruct (is_space c) eqn:C.
  - destruct b; simpl.
    + intros H. destruct (IH _ H) as [-> | [H1 H2]]; auto.
    + intros [<- | H]; auto. destruct (IH _ H) as [-> | [H1 H2]]; auto.
  - simpl. intros [<- | H]; auto.
    destruct (IH _ H) as [-> | [H1 H2]]; auto.
Qed.

Lemma token_chars (s : text) (d : codepoint) :
  covered s = true ->
  In d (collapse_ws (sub_class is_dash (sub_class is_apostrophe
          (strip_accents (strip (lower s)))))) ->
  token_char d = true.
Proof.
  intros Hs Hd. unfold collapse_ws in Hd.
  assert (HSP : token_char SP = true) by reflexivity.
  apply sub_ws_runs_In in Hd. destruct Hd as [-> | [Hd Hw]]; [exact HSP|].
  apply sub_class_In in Hd. destruct Hd as [-> | [Hd Hdash]]; [exact HSP|].
  apply sub_class_In in Hd. destruct Hd as [-> | [Hd Hapo]]; [exact HSP|].
  unfold strip_accents in Hd. apply in_flat_map in Hd.
  destruct Hd as (c' & Hc' & Hd).
  apply strip_In in Hc'. unfold lower in Hc'. apply in_map_iff in Hc'.
  destruct Hc' as (c & <- & Hc).
  unfold covered in Hs. rewrite forallb_forall in Hs.
  pose proof (covered_decomposition c (Hs _ Hc)) as St.
  rewrite forallb_forall in St. specialize (St _ Hd).
  unfold token_char. rewrite St, Hapo, Hdash, Hw. reflexivity.
Qed.

Lemma single_spaced_cons (c d : codepoint) (r : text) :
  single_spaced (c :: d :: r)
  = negb (is_space c && is_space d) && single_spaced (d :: r).
Proof. reflexivity. Qed.

Lemma single_spaced_tail (c : codepoint) (r : text) :
  single_spaced (c :: r) = true -> single_spaced r = true.
Proof.
  destruct r as [|d r]; [reflexivity|].
  rewrite single_spaced_cons, andb_true_iff. tauto.
Qed.

Lemma sub_ws_runs_single_spaced (b : bool) (x : text) :
  single_spaced (sub_ws_runs b x) = true
  /\ (b = true -> no_lead (sub_ws_runs b x) = true).
Proof.
  revert b; induction x as [|c x IH]; intros b; [split; reflexivity|].
  cbn [sub_ws_runs]. destruct (is_space c) eqn:C.
  - destruct b.
    + apply IH.
    + split; [|discriminate].
      destruct (IH true) as [S1 L1]. specialize (L1 eq_refl).
      destruct (sub_ws_runs true x) as [|d o]; [reflexivity|].
      rewrite single_spaced_cons. cbn [no_lead] in L1.
      apply negb_true_iff in L1. rewrite L1, andb_false_r. exact S1.
  - destruct (IH false) as [S1 _]. split.
    + destruct (sub_ws_runs false x) as [|d o]; [reflexivity|].
      rewrite single_spaced_cons, C. exact S1.
    + intros _. cbn [no_lead]. rewrite C. reflexivity.
Qed.

Lemma lstrip_single_spaced (x : text) :
  single_spaced x = true -> single_spaced (lstrip x) = true.
Proof.
  induction x as [|c x IH]; [reflexivity|].
  intros H. cbn [lstrip]. destruct (is_space c); [|exact H].
  apply IH. exact (single_spaced_tail _ _ H).
Qed.

Lemma rstrip_head (x t : text) (e : codepoint) :
  rstrip x = e :: t -> exists r, x = e :: r.
Proof.
  destruct x as [|c x]; [discriminate|]. cbn [rstrip].
  destruct (rstrip x); [destruct (is_space c)|]; intros [= -> _]; eauto.
Qed.

Lemma rstrip_single_spaced (x : text) :
  single_spaced x = true -> single_spaced (rstrip x) = true.
Proof.
  induction x as [|c x IH]; [reflexivity|].
  intros H. cbn [rstrip].
  destruct (rstrip x) as [|e t] eqn:E.
  - destruct (is_space c); reflexivity.
  - destruct (rstrip_head _ _ _ E) as (r & ->).
    rewrite single_spaced_cons in H |- *. apply andb_true_iff in H.
    destruct H as [H1 H2]. rewrite H1. exact (IH H2).
Qed.

Lemma starts_with_single_spaced (p x r : text) :
  starts_with p x = Some r ->
  single_spaced x = true -> single_spaced r = true.
Proof.
  revert x; induction p as [|c p IH]; intros x; cbn [starts_with].
  - intros [= ->]. auto.
  - destruct x as [|e x]; [discriminate|].
    destruct (N.eqb c e); [|discriminate].
    intros H S. apply (IH _ H). exact (single_spaced_tail _ _ S).
Qed.

Lemma sub_legal_prefix_single_spaced (x : text) :
  single_spaced x = true -> single_spaced (sub_legal_prefix x) = true.
Proof.
  intros S. unfold sub_legal_prefix.
  assert (G : forall ps r, match_any_prefix ps x = Some r ->
                           single_spaced r = true).
  { induction ps as [|p ps IH]; cbn [match_any_prefix]; [discriminate|].
    intros r. unfold match_prefix at 1.
    destruct (starts_with p x) as [[|c q]|] eqn:E; try exact (IH r).
    destruct (is_space c); [|exact (IH r)].
    intros [= <-]. apply lstrip_single_spaced.
    exact (single_spaced_tail _ _ (starts_with_single_spaced _ _ _ E S)). }
  destruct (match_any_prefix LEGAL_PREFIXES x) as [r|] eqn:E; [|exact S].
  exact (G _ _ E).
Qed.

Lemma lstrip_no_lead (x : text) : no_lead (lstrip x) = true.
Proof.
  induction x as [|c x IH]; [reflexivity|].
  cbn [lstrip]. destruct (is_space c) eqn:C; [exact IH|].
  cbn [no_lead]. rewrite C. reflexivity.
Qed.

Lemma no_lead_lstrip (y : text) : no_lead y = true -> lstrip y = y.
Proof.
  destruct y as [|c y]; [reflexivity|]. cbn [no_lead lstrip].
  intros H. apply negb_true_iff in H. rewrite H. reflexivity.
Qed.

Lemma rstrip_no_lead (y : text) : no_lead y = true -> no_lead (rstrip y) = true.
Proof.
  destruct y as [|c y]; [reflexivity|]. cbn [no_lead rstrip]. intros H.
  destruct (rstrip y); [|exact H].
  apply negb_true_iff in H. rewrite H. cbn [no_lead]. rewrite H. reflexivity.
Qed.

Lemma rstrip_idempotent (x : text) : rstrip (rstrip x) = rstrip x.
Proof.
  induction x as [|c x IH]; [reflexivity|]. cbn [rstrip].
  destruct (rstrip x) as [|e t] eqn:E.
  - destruct (is_space c) eqn:C; [reflexivity|].
    cbn [rstrip]. rewrite C. reflexivity.
  - change (rstrip (c :: e :: t)) with
        (match rstrip (e :: t) with
         | [] => if is_space c then [] else [c]
         | u => c :: u
         end).
    rewrite IH. reflexivity.
Qed.

Lemma strip_idempotent (x : text) : strip (strip x) = strip x.
Proof.
  unfold strip.
  rewrite (no_lead_lstrip _ (rstrip_no_lead _ (lstrip_no_lead x))).
  apply rstrip_idempotent.
Qed.

Lemma sub_ws_runs_fixed (t : text) (b : bool) :
  (forall d, In d t -> token_char d = true) ->
  single_spaced t = true ->
  (b = true -> no_lead t = true) ->
  sub_ws_runs b t = t.
Proof.
  revert b; induction t as [|c t IH]; intros b Hc S L; [reflexivity|].
  cbn [sub_ws_runs]. destruct (is_space c) eqn:C.
  - destruct b.
    + specialize (L eq_refl). cbn [no_lead] in L. rewrite C in L. discriminate.
    + assert (E : c = SP).
      { pose proof (Hc c (or_introl eq_refl)) as T. unfold token_char in T.
        rewrite C in T. rewrite !andb_true_iff in T.
        destruct T as (_ & T). cbn [negb orb] in T. apply N.eqb_eq. exact T. }
      subst c. f_equal. apply IH.
      * intros d Hd. apply Hc. right. exact Hd.
      * exact (single_spaced_tail _ _ S).
      * intros _. destruct t as [|d t]; [reflexivity|].
        rewrite single_spaced_cons in S. apply andb_true_iff in S.
        destruct S as [S _]. rewrite C in S. cbn [andb no_lead] in S |- *.
        exact S.
  - f_equal. apply IH.
    + intros d Hd. apply Hc. right. exact Hd.
    + exact (single_spaced_tail _ _ S).
    + discriminate.
Qed.

Lemma map_fixed (A : Type) (f : A -> A) (l : list A) :
  (forall x, In x l -> f x = x) -> map f l = l.
Proof.
  induction l as [|a l IH]; intros H; [reflexivity|].
  cbn [map]. rewrite (H a (or_introl eq_refl)), IH; [reflexivity|].
  intros x Hx. apply H. right. exact Hx.
Qed.

Lemma strip_accents_fixed (t : text) :
  (forall d, In d t -> token_char d = true) -> strip_accents t = t.
Proof.
  induction t as [|c t IH]; intros H; [reflexivity|].
  unfold strip_accents in *. cbn [flat_map].
  rewrite IH by (intros d Hd; apply H; right; exact Hd).
  pose proof (H c (or_introl eq_refl)) as T.
  unfold token_char, stable_char in T. rewrite !andb_true_iff in T.
  destruct T as (((((_ & T2) & T3) & _) & _) & _).
  apply negb_true_iff in T3.
  apply text_eqb_eq in T2. rewrite T2. cbn [filter app]. rewrite T3.
  reflexivity.
Qed.

(** On a tidy token only the prefix rule and the final strip can act. *)
Lemma base_normalize_of_tidy (t : text) :
  (forall d, In d t -> token_char d = true) ->
  single_spaced t = true ->
  strip t = t ->
  base_normalize t = strip (sub_legal_prefix t).
Proof.
  intros Hc S St. unfold base_normalize.
  assert (E1 : lower t = t).
  { apply map_fixed. intros d Hd. specialize (Hc d Hd).
    unfold token_char, stable_char in Hc. rewrite !andb_true_iff in Hc.
    apply N.eqb_eq. tauto. }
  rewrite E1, St, (strip_accents_fixed _ Hc).
  assert (E2 : sub_class is_apostrophe t = t).
  { apply map_fixed. intros d Hd. specialize (Hc d Hd).
    unfold token_char in Hc. rewrite !andb_true_iff, !negb_true_iff in Hc.
    destruct Hc as (((_ & A) & _) & _). rewrite A. reflexivity. }
  rewrite E2.
  assert (E3 : sub_class is_dash t = t).
  { apply map_fixed. intros d Hd. specialize (Hc d Hd).
    unfold token_char in Hc. rewrite !andb_true_iff, !negb_true_iff in Hc.
    destruct Hc as ((_ & D) & _). rewrite D. reflexivity. }
  rewrite E3. unfold collapse_ws.
  rewrite (sub_ws_runs_fixed t false Hc S) by discriminate.
  reflexivity.
Qed.

(** A tidy token without a legal-entity prefix is its own normal form. *)
Lemma base_normalize_fixed (t : text) :
  (forall d, In d t -> token_char d = true) ->
  single_spaced t = true ->
  strip t = t ->
  match_any_prefix LEGAL_PREFIXES t = None ->
  base_normalize t = t.
Proof.
  intros Hc S St Hp. rewrite (base_normalize_of_tidy _ Hc S St).
  unfold sub_legal_prefix. rewrite Hp. exact St.
Qed.

Lemma lstrip_length (x : text) : (List.length (lstrip x) <= List.length x)%nat.
Proof.
  induction x as [|c x IH]; cbn [lstrip List.length]; [lia|].
  destruct (is_space c); cbn [List.length]; lia.
Qed.

Lemma rstrip_length (x : text) : (List.length (rstrip x) <= List.length x)%nat.
Proof.
  induction x as [|c x IH]; cbn [rstrip List.length]; [lia|].
  destruct (rstrip x) as [|e t]; [destruct (is_space c)|];
    cbn [List.length] in *; lia.
Qed.

Lemma starts_with_length (p x r : text) :
  starts_with p x = Some r -> (List.length r <= List.length x)%nat.
Proof.
  revert x; induction p as [|c p IH]; intros x; cbn [starts_with].
  - intros [= ->]. lia.
  - destruct x as [|e x]; [discriminate|].
    destruct (N.eqb c e); [|discriminate].
    intros H. specialize (IH _ H). cbn [List.length]. lia.
Qed.

Lemma match_any_prefix_shorter (ps : list text) (x r : text) :
  match_any_prefix ps x = Some r -> (List.length r < List.length x)%nat.
Proof.
  induction ps as [|p ps IH]; cbn [match_any_prefix]; [discriminate|].
  unfold match_prefix at 1.
  destruct (starts_with p x) as [[|c q]|] eqn:E; try exact IH.
  destruct (is_space c); [|exact IH].
  intros [= <-]. pose proof (starts_with_length _ _ _ E) as L.
  pose proof (lstrip_length q). cbn [List.length] in L. lia.
Qed.

(** The restriction of C2 is the exact one: a normal form that still
    carries a legal-entity prefix is shortened by a second call. *)
Lemma base_normalize_prefix_shrinks (t r : text) :
  (forall d, In d t -> token_char d = true) ->
  single_spaced t = true ->
  strip t = t ->
  match_any_prefix LEGAL_PREFIXES t = Some r ->
  (List.length (base_normalize t) < List.length t)%nat.
Proof.
  intros Hc S St Hp. rewrite (base_normalize_of_tidy _ Hc S St).
  unfold sub_legal_prefix. rewrite Hp. unfold strip.
  pose proof (match_any_prefix_shorter _ _ _ Hp).
  pose proof (rstrip_length (lstrip r)). pose proof (lstrip_length r). lia.
Qed.

(** The normal form of a text of the repertoire is such a tidy token. *)
Lemma base_normalize_tidy (s : text) :
  covered s = true ->
  (forall d, In d (base_normalize s) -> token_char d = true)
  /\ single_spaced (base_normalize s) = true
  /\ strip (base_normalize s) = base_normalize s.
Proof.
  intros Hs. unfold base_normalize. split; [|split].
  - intros d Hd. apply strip_In, sub_legal_prefix_In in Hd.
    exact (token_chars _ _ Hs Hd).
  - unfold strip. apply rstrip_single_spaced, lstrip_single_spaced.
    apply sub_legal_prefix_single_spaced. unfold collapse_ws.
    apply sub_ws_runs_single_spaced.
  - apply strip_idempotent.
Qed.

(** C2, as the specification states it, fails: the anchored prefix
    pattern removes one legal-entity prefix per call, so a label that
    carries two of them needs two calls. *)
Lemma C2_not_idempotent :
  base_normalize (base_normalize (utf8 "Provincia di Provincia di Napoli"))
  <> base_normalize (utf8 "Provincia di Provincia di Napoli").
Proof. vm_compute. discriminate. Qed.

(** C2 (amended).  On the repertoire of Italian labels, normalization is
    idempotent on every text whose normal form does not itself begin
    with one of the legal-entity prefixes followed by white space. *)
Theorem C2_idempotent_without_prefix (s : text) :
  covered s = true ->
  match_any_prefix LEGAL_PREFIXES (base_normalize s) = None ->
  base_normalize (base_normalize s) = base_normalize s.
Proof.
  intros Hs Hp.
  destruct (base_normalize_tidy _ Hs) as (Hc & S & St).
  exact (base_normalize_fixed _ Hc S St Hp).
Qed.

Lemma C2_idempotent_without_prefix_witness :
  base_normalize (base_normalize (utf8 " Città  Metropolitana di REGGIO nell’Emilia — "))
  = base_normalize (utf8 " Città  Metropolitana di REGGIO nell’Emilia — ").
Proof.
  apply (C2_idempotent_without_prefix
           (utf8 " Città  Metropolitana di REGGIO nell’Emilia — "));
    vm_compute; reflexivity.
Defined.

(* ================================================================== *)
(** * Further properties of normalization *)
(* ================================================================== *)

Lemma strip_fixed_no_lead (b : text) : strip b = b -> no_lead b = true.
Proof.
  intros E. rewrite <- E. unfold strip.
  apply rstrip_no_lead, lstrip_no_lead.
Qed.


(** X1.  The normal form of a label of the repertoire is tidy: nothing
    to strip at either end, no two white characters in a row, and only
    lower-case characters that are no combining mark, no apostrophe, no
    dash and no white space other than the plain space. *)
Theorem normal_form_is_tidy (s : text) :
  covered s = true ->
  strip (base_normalize s) = base_normalize s
  /\ no_lead (base_normalize s) = true
  /\ single_spaced (base_normalize s) = true
  /\ forall d, In d (base_normalize s) ->
       lower_char d = d /\ combining d = false
       /\ is_apostrophe d = false /\ is_dash d = false
       /\ (is_space d = true -> d = SP).
Proof.
  intros Hs. destruct (base_normalize_tidy _ Hs) as (Hc & S & St).
  split; [exact St | split; [exact (strip_fixed_no_lead _ St) | split; [exact S|]]].
  intros d Hd. specialize (Hc d Hd).
  unfold token_char, stable_char in Hc.
  rewrite !andb_true_iff, !negb_true_iff, orb_true_iff, negb_true_iff in Hc.
  destruct Hc as (((((L & _) & C) & A) & D) & W).
  apply N.eqb_eq in L. repeat split; try assumption.
  intros Sp. destruct W as [W | W]; [congruence | apply N.eqb_eq; exact W].
Qed.

Lemma normal_form_is_tidy_witness :
  strip (base_normalize (utf8 "  L’Aquila — (AQ) "))
  = base_normalize (utf8 "  L’Aquila — (AQ) ")
  /\ no_lead (base_normalize (utf8 "  L’Aquila — (AQ) ")) = true
  /\ single_spaced (base_normalize (utf8 "  L’Aquila — (AQ) ")) = true
  /\ forall d, In d (base_normalize (utf8 "  L’Aquila — (AQ) ")) ->
       lower_char d = d /\ combining d = false
       /\ is_apostrophe d = false /\ is_dash d = false
       /\ (is_space d = true -> d = SP).
Proof.
  apply (normal_form_is_tidy (utf8 "  L’Aquila — (AQ) ")).
  vm_compute. reflexivity.
Defined.

















(* ================================================================== *)
(** * Further properties of the alias index and of the resolution *)
(* ================================================================== *)

Lemma build_alias_map_evaluated : build_alias_map = ALIASES.
Proof. vm_compute. reflexivity. Qed.

(** X5.  In the index that [build_alias_map] returns, every key is a
    non-empty token that is its own normal form, and every value is a
    name of the reference lists. *)
Theorem alias_index_well_formed (k v : text) :
  dict_get k build_alias_map = Some v ->
  base_normalize k = k /\ k <> [] /\ canonical_name v.
Proof.
  rewrite build_alias_map_evaluated. intros H. apply dict_get_In in H.
  assert (F : forallb (fun kv =>
                text_eqb (base_normalize (fst kv)) (fst kv)
                && negb (text_eqb (fst kv) [])
                && (mem (snd kv) ALL_PROVINCES || mem (snd kv) REGIONS
                    || mem (snd kv) MACROS)) ALIASES = true)
    by (vm_compute; reflexivity).
  rewrite forallb_forall in F. specialize (F _ H). cbn [fst snd] in F.
  rewrite !andb_true_iff, !orb_true_iff, negb_true_iff, !mem_In in F.
  destruct F as [[F1 F2] F3]. apply text_eqb_eq in F1.
  split; [exact F1 | split; [|unfold canonical_name; tauto]].
  intros ->. discriminate F2.
Qed.

Lemma alias_index_well_formed_witness :
  base_normalize (utf8 "b.a.t.") = utf8 "b.a.t." /\ utf8 "b.a.t." <> []
  /\ canonical_name (utf8 "Barletta-Andria-Trani").
Proof.
  apply (alias_index_well_formed (utf8 "b.a.t.") (utf8 "Barletta-Andria-Trani")).
  vm_compute. reflexivity.
Defined.

Lemma alias_hit_record (tok v : text) :
  dict_get tok NORM_ALIAS = Some v ->
  exists t, alias_pass tok = Ok (Some t)
            /\ most_specific t = Some v /\ level t <> unknown.
Proof.
  intros H. pose proof (dict_get_In _ _ _ H) as Hin.
  assert (F : forallb (fun kv =>
                match alias_pass (fst kv) with
                | Ok (Some t) =>
                  match most_specific t, level t with
                  | _, unknown => false
                  | Some n, _ => text_eqb n (snd kv)
                  | None, _ => false
                  end
                | _ => false
                end) NORM_ALIAS = true) by (vm_compute; reflexivity).
  rewrite forallb_forall in F. specialize (F _ Hin). cbn [fst snd] in F.
  destruct (alias_pass tok) as [[t|]|]; try discriminate F.
  exists t. split; [reflexivity|].
  destruct (most_specific t) as [n|], (level t); try discriminate F;
    apply text_eqb_eq in F; subst n; split; (reflexivity || discriminate).
Qed.

(** X6.  A token that is a key of the alias index always gets the
    record of the name stored under it, at the level of that name; the
    later stages are not consulted. *)
Theorem alias_hit_resolves (raw v : text) :
  dict_get (base_normalize raw) NORM_ALIAS = Some v ->
  exists t, standardize_territory (Some raw) = Ok t
            /\ most_specific t = Some v /\ level t <> unknown.
Proof.
  intros H. destruct (alias_hit_record _ _ H) as (t & E & M & L).
  exists t. cbn [standardize_territory].
  rewrite (alias_hit_decides _ _ E). auto.
Qed.

Lemma alias_hit_resolves_witness :
  exists t, standardize_territory (Some (utf8 "PROVINCIA DI  Bozen")) = Ok t
            /\ most_specific t = Some (utf8 "Bolzano/Bozen")
            /\ level t <> unknown.
Proof.
  apply (alias_hit_resolves (utf8 "PROVINCIA DI  Bozen") (utf8 "Bolzano/Bozen")).
  vm_compute. reflexivity.
Defined.

Lemma alias_fall_through (tok : text) :
  alias_pass tok = Ok None <-> dict_get tok NORM_ALIAS = None.
Proof.
  split.
  - intros E. destruct (dict_get tok NORM_ALIAS) as [v|] eqn:G; [|reflexivity].
    destruct (alias_hit_record _ _ G) as (t & E' & _). congruence.
  - intros G. unfold alias_pass. rewrite G. reflexivity.
Qed.

Lemma dict_get_key (V : Type) (k : text) (d : dict text V) (v : V) :
  dict_get k d = Some v -> In k (dict_keys d).
Proof.
  intros H. apply dict_get_In in H. unfold dict_keys.
  apply in_map_iff. exists (k, v). split; [reflexivity | exact H].
Qed.

Lemma canonical_keys_are_aliases (k : text) :
  In k (dict_keys NORM_PROV ++ dict_keys NORM_REG ++ dict_keys NORM_MAC) ->
  dict_mem k NORM_ALIAS = true.
Proof.
  assert (F : forallb (fun k => dict_mem k NORM_ALIAS)
                (dict_keys NORM_PROV ++ dict_keys NORM_REG ++ dict_keys NORM_MAC)
              = true) by (vm_compute; reflexivity).
  rewrite forallb_forall in F. apply F.
Qed.

Lemma exact_pass_subsumed (tok : text) :
  alias_pass tok = Ok None -> exact_pass tok = Ok None.
Proof.
  intros E. apply alias_fall_through in E.
  assert (N : forall V (d : dict text V),
             incl (dict_keys d)
                  (dict_keys NORM_PROV ++ dict_keys NORM_REG ++ dict_keys NORM_MAC) ->
             dict_mem tok d = false).
  { intros V d Hd. destruct (dict_mem tok d) eqn:M; [|reflexivity].
    apply dict_mem_get in M. destruct M as (v & Hv).
    apply dict_get_key in Hv. apply Hd, canonical_keys_are_aliases in Hv.
    unfold dict_mem in Hv. rewrite E in Hv. discriminate Hv. }
  unfold exact_pass.
  rewrite (N _ NORM_PROV) by (intros k Hk; apply in_or_app; auto).
  rewrite (N _ NORM_REG)
    by (intros k Hk; apply in_or_app; right; apply in_or_app; auto).
  rewrite (N _ NORM_MAC)
    by (intros k Hk; apply in_or_app; right; apply in_or_app; auto).
  reflexivity.
Qed.

(** X7.  The "direct exact" stage is subsumed by the alias pass: every
    key of [NORM_PROV], [NORM_REG] and [NORM_MAC] is a key of the alias
    index, so a token that the alias pass lets through is let through
    by the exact pass as well. *)
Theorem exact_pass_never_decides (tok : text) :
  alias_pass tok = Ok None -> exact_pass tok = Ok None.
Proof.
  intros E. apply exact_pass_subsumed. exact E.
Qed.

Lemma exact_pass_never_decides_witness : exact_pass (utf8 "bolgna") = Ok None.
Proof.
  apply (exact_pass_never_decides (utf8 "bolgna")). vm_compute. reflexivity.
Defined.

Lemma province_to_region_entries (p reg : text) :
  dict_get p PROVINCE_TO_REGION = Some reg ->
  In p ALL_PROVINCES /\ In reg REGIONS.
Proof.
  intros H. apply dict_get_In in H.
  assert (F : forallb (fun pr => mem (fst pr) ALL_PROVINCES && mem (snd pr) REGIONS)
                      PROVINCE_TO_REGION = true) by (vm_compute; reflexivity).
  rewrite forallb_forall in F. specialize (F _ H). cbn [fst snd] in F.
  rewrite andb_true_iff, !mem_In in F. exact F.
Qed.

Lemma region_to_macro_entries (reg mac : text) :
  dict_get reg REGION_TO_MACRO = Some mac ->
  In mac MACROS
  /\ exists rs, dict_get mac MACRO_TO_REGIONS = Some rs /\ In reg rs.
Proof.
  intros H. apply dict_get_In in H.
  assert (F : forallb (fun rm =>
                mem (snd rm) MACROS
                && match dict_get (snd rm) MACRO_TO_REGIONS with
                   | Some rs => mem (fst rm) rs
                   | None => false
                   end) REGION_TO_MACRO = true) by (vm_compute; reflexivity).
  rewrite forallb_forall in F. specialize (F _ H). cbn [fst snd] in F.
  rewrite andb_true_iff, mem_In in F. destruct F as [F1 F2].
  split; [exact F1|].
  destruct (dict_get mac MACRO_TO_REGIONS) as [rs|]; [|discriminate F2].
  exists rs. rewrite mem_In in F2. auto.
Qed.

(** X8.  [standardize_territory] never invents a name: whatever the
    input, a province it returns is one of the 107 provinces, a region
    one of [REGIONS], a macro-area one of the five of [MACROS]. *)
Theorem closed_vocabulary (raw : option text) (t : Territory) :
  standardize_territory raw = Ok t ->
  (forall p, province_std t = Some p -> In p ALL_PROVINCES)
  /\ (forall r, region_std t = Some r -> In r REGIONS)
  /\ (forall m, macro_std t = Some m -> In m MACROS).
Proof.
  intros E. destruct (standardize_territory_resolved raw) as (t' & E' & R).
  rewrite E in E'. injection E' as <-.
  destruct R as [p reg mac ps H1 H2 H3 H4 | reg mac H1 H2 | mac H1 | ];
    cbn [province_std region_std macro_std UNKNOWN];
    repeat split; intros x [= <-];
    try exact (proj1 (province_to_region_entries _ _ H1));
    try exact (proj2 (province_to_region_entries _ _ H1));
    try exact (proj1 (region_to_macro_entries _ _ H4));
    try exact (proj1 (region_to_macro_entries _ _ H2));
    assumption.
Qed.

Lemma closed_vocabulary_witness :
  (forall p, Some (utf8 "Bologna") = Some p -> In p ALL_PROVINCES)
  /\ (forall r, Some (utf8 "Emilia-Romagna") = Some r -> In r REGIONS)
  /\ (forall m, Some (utf8 "Nord-est") = Some m -> In m MACROS).
Proof.
  apply (closed_vocabulary (Some (utf8 "Bolgna"))
           (mkTerritory province (Some (utf8 "Bologna"))
                        (Some (utf8 "Emilia-Romagna")) (Some (utf8 "Nord-est")))).
  vm_compute. reflexivity.
Defined.

(** X9.  A record of level [region] carries no province, a region of
    [REGIONS], and as macro-area [REGION_TO_MACRO] of that region, which
    is the macro-area that lists the region in [MACRO_TO_REGIONS]. *)
Theorem region_level_consistency (raw : option text) (t : Territory) :
  standardize_territory raw = Ok t ->
  level t = region ->
  exists reg mac rs,
    province_std t = None /\ region_std t = Some reg /\ macro_std t = Some mac
    /\ In reg REGIONS
    /\ dict_get reg REGION_TO_MACRO = Some mac
    /\ dict_get mac MACRO_TO_REGIONS = Some rs /\ In reg rs.
Proof.
  intros E L. destruct (standardize_territory_resolved raw) as (t' & E' & R).
  rewrite E in E'. injection E' as <-.
  destruct R as [p reg mac ps H1 H2 H3 H4 | reg mac H1 H2 | mac H1 | ];
    try discriminate L.
  destruct (region_to_macro_entries _ _ H2) as (_ & rs & Hrs & Hin).
  exists reg, mac, rs. cbn [province_std region_std macro_std].
  repeat split; assumption.
Qed.

Lemma region_level_consistency_witness :
  exists reg mac rs,
    @None text = None
    /\ Some (utf8 "Trentino-Alto Adige/Südtirol") = Some reg
    /\ Some (utf8 "Nord-est") = Some mac
    /\ In reg REGIONS
    /\ dict_get reg REGION_TO_MACRO = Some mac
    /\ dict_get mac MACRO_TO_REGIONS = Some rs /\ In reg rs.
Proof.
  apply (region_level_consistency
           (Some (utf8 "Trentino Alto Adige"))
           (mkTerritory region None (Some (utf8 "Trentino-Alto Adige/Südtirol"))
                        (Some (utf8 "Nord-est")))).
  - vm_compute. reflexivity.
  - reflexivity.
Defined.

(** X10.  Standardization is a projection: the name a result stands
    for, given back as input, yields the same record. *)
Theorem canonical_output_is_fixed (raw : option text) (t : Territory) (n : text) :
  standardize_territory raw = Ok t ->
  most_specific t = Some n ->
  standardize_territory (Some n) = Ok t.
Proof.
  intros E M. destruct (standardize_territory_resolved raw) as (t' & E' & R).
  rewrite E in E'. injection E' as <-. cbn [standardize_territory].
  destruct R as [p reg mac ps H1 H2 H3 H4 | reg mac H1 H2 | mac H1 | ];
    unfold most_specific in M;
    cbn [level province_std region_std macro_std UNKNOWN] in M;
    try discriminate M; injection M as <-.
  - destruct (self_province _ (proj1 (province_to_region_entries _ _ H1)))
      as (reg' & mac' & G1 & G2 & ->).
    rewrite H1 in G1. injection G1 as <-.
    rewrite H4 in G2. injection G2 as <-. reflexivity.
  - destruct (self_region _ H1) as (mac' & G & ->).
    rewrite H2 in G. injection G as <-. reflexivity.
  - exact (self_macro _ H1).
Qed.

Lemma canonical_output_is_fixed_witness :
  standardize_territory (Some (utf8 "Reggio nell'Emilia"))
  = Ok (mkTerritory province (Some (utf8 "Reggio nell'Emilia"))
                    (Some (utf8 "Emilia-Romagna")) (Some (utf8 "Nord-est"))).
Proof.
  apply (canonical_output_is_fixed (Some (utf8 "provincia di reggio emilia"))).
  - vm_compute. reflexivity.
  - reflexivity.
Defined.

(* ================================================================== *)
(** * Further properties of the close-match *)
(* ================================================================== *)

Lemma close_enough_tests (cutoff : Q) (x word : text) :
  close_enough cutoff x word = true ->
  Qle_bool cutoff (real_quick_ratio x word) = true
  /\ Qle_bool cutoff (quick_ratio x word) = true
  /\ Qle_bool cutoff (ratio x word) = true.
Proof.
  unfold close_enough.
  destruct (Qle_bool cutoff (real_quick_ratio x word)); [|discriminate].
  destruct (Qle_bool cutoff (quick_ratio x word)); [|discriminate].
  auto.
Qed.

Lemma scored_In (cutoff : Q) (word : text) (possibilities : list text)
      (e : Q * text) :
  In e (flat_map (fun x => if close_enough cutoff x word
                           then [(ratio x word, x)] else [])
                 possibilities)
  <-> In (snd e) possibilities
      /\ close_enough cutoff (snd e) word = true
      /\ fst e = ratio (snd e) word.
Proof.
  rewrite in_flat_map. split.
  - intros (x & Hx & He).
    destruct (close_enough cutoff x word) eqn:C; [|destruct He].
    destruct He as [<- | []]. cbn [fst snd]. auto.
  - intros (Hx & C & E). exists (snd e). split; [exact Hx|].
    rewrite C. left. destruct e as [q y]. cbn [fst snd] in *. subst q.
    reflexivity.
Qed.

(** The window of lengths outside which the first test already fails. *)
Lemma real_quick_window (x word : text) :
  Qle_bool CUTOFF (real_quick_ratio x word) = true ->
  (9 * (List.length x + List.length word)
   <= 20 * Nat.min (List.length x) (List.length word))%nat.
Proof.
  unfold real_quick_ratio, calculate_ratio, CUTOFF.
  destruct (List.length x + List.length word)%nat as [|n] eqn:E; [lia|].
  rewrite Qle_bool_iff. unfold Qle. cbn [Qnum Qden].
  assert (P : Zpos (Pos.of_nat (S n)) = Z.of_nat (S n))
    by (rewrite <- Pos.of_nat_succ, Znat.Zpos_P_of_succ_nat; lia).
  rewrite P. lia.
Qed.

Lemma match_from_candidates_hit (token : text) (candidates : list text) (m : text) :
  match_from_candidates token candidates = Ok (Some m) ->
  exists q rest,
    nlargest 1 (flat_map (fun x => if close_enough CUTOFF x token
                                   then [(ratio x token, x)] else [])
                         candidates)
    = (q, m) :: rest.
Proof.
  unfold match_from_candidates, get_close_matches. cbn [Nat.ltb Nat.leb negb].
  change (negb (Qle_bool 0 CUTOFF && Qle_bool CUTOFF 1)) with false.
  cbv iota. cbn [bind].
  destruct (nlargest 1 _) as [|[q y] rest]; cbn [map hd_error snd];
    intros [= <-]. eauto.
Qed.

(** X11.  What [match_from_candidates] returns is one of the
    candidates, its similarity ratio with the token is at least 9/10,
    and the two lengths [n] and [m] satisfy [9 (n + m) <= 20 min(n, m)]:
    a candidate much longer or much shorter than the token is never
    returned. *)
Theorem close_match_sound (token : text) (candidates : list text) (m : text) :
  match_from_candidates token candidates = Ok (Some m) ->
  In m candidates
  /\ Qle (9 # 10) (ratio m token)
  /\ (9 * (List.length m + List.length token)
      <= 20 * Nat.min (List.length m) (List.length token))%nat.
Proof.
  intros H. destruct (match_from_candidates_hit _ _ _ H) as (q & rest & E).
  assert (Hin : In (q, m) (nlargest 1
            (flat_map (fun x => if close_enough CUTOFF x token
                                then [(ratio x token, x)] else [])
                      candidates))) by (rewrite E; left; reflexivity).
  apply nlargest_In, scored_In in Hin. cbn [fst snd] in Hin.
  destruct Hin as (Hm & C & _).
  destruct (close_enough_tests _ _ _ C) as (T1 & _ & T3).
  split; [exact Hm | split].
  - apply Qle_bool_iff. exact T3.
  - exact (real_quick_window _ _ T1).
Qed.

Lemma close_match_sound_witness :
  In (utf8 "bologna") (dict_keys NORM_PROV)
  /\ Qle (9 # 10) (ratio (utf8 "bologna") (utf8 "bolgna"))
  /\ (9 * (List.length (utf8 "bologna") + List.length (utf8 "bolgna"))
      <= 20 * Nat.min (List.length (utf8 "bologna")) (List.length (utf8 "bolgna")))%nat.
Proof.
  apply (close_match_sound (utf8 "bolgna") (dict_keys NORM_PROV) (utf8 "bologna")).
  vm_compute. reflexivity.
Defined.

Lemma insert_desc_keeps (x y : Q * text) (l : list (Q * text)) :
  y = x \/ In y l -> In y (insert_desc x l).
Proof.
  induction l as [|z l IH]; cbn [insert_desc].
  - intros [-> | []]. left. reflexivity.
  - destruct (scored_ltb z x); cbn [In].
    + intros [-> | H]; auto.
    + intros [-> | [-> | H]]; auto.
Qed.

Lemma sort_desc_keeps (l acc : list (Q * text)) (y : Q * text) :
  In y l \/ In y acc ->
  In y (fold_left (fun acc x => insert_desc x acc) l acc).
Proof.
  revert acc; induction l as [|x l IH]; cbn [fold_left]; intros acc.
  - intros [[] | H]. exact H.
  - intros [[<- | H] | H]; apply IH.
    + right. apply insert_desc_keeps. left. reflexivity.
    + left. exact H.
    + right. apply insert_desc_keeps. right. exact H.
Qed.

Lemma scored_ltb_le (x y : Q * text) :
  scored_ltb x y = true -> Qle (fst x) (fst y).
Proof.
  unfold scored_ltb. intros H. apply Qle_alt.
  destruct (fst x ?= fst y)%Q; discriminate.
Qed.

Lemma scored_ltb_ge (x y : Q * text) :
  scored_ltb x y = false -> Qle (fst y) (fst x).
Proof.
  unfold scored_ltb. intros H.
  destruct (fst x ?= fst y)%Q eqn:C.
  - apply Qeq_alt in C. rewrite C. apply Qle_refl.
  - discriminate H.
  - apply Qgt_alt in C. apply Qlt_le_weak. exact C.
Qed.

(** The head of the descending order has the greatest score. *)
Lemma insert_desc_head (x : Q * text) (l : list (Q * text)) :
  (forall h t, l = h :: t -> forall e, In e l -> Qle (fst e) (fst h)) ->
  forall h t, insert_desc x l = h :: t ->
              forall e, In e (insert_desc x l) -> Qle (fst e) (fst h).
Proof.
  intros Hl h t. destruct l as [|z l]; cbn [insert_desc].
  - intros [= <- <-] e [<- | []]. apply Qle_refl.
  - specialize (Hl z l eq_refl).
    destruct (scored_ltb z x) eqn:C.
    + intros [= <- <-] e [<- | He]; [apply Qle_refl|].
      eapply Qle_trans; [exact (Hl e He) | exact (scored_ltb_le _ _ C)].
    + intros [= <- <-] e [<- | He]; [apply Qle_refl|].
      apply insert_desc_In in He. destruct He as [-> | He].
      * exact (scored_ltb_ge _ _ C).
      * apply Hl. right. exact He.
Qed.

Lemma sort_desc_head (l acc : list (Q * text)) :
  (forall h t, acc = h :: t -> forall e, In e acc -> Qle (fst e) (fst h)) ->
  forall h t, fold_left (fun acc x => insert_desc x acc) l acc = h :: t ->
              forall e, In e (fold_left (fun acc x => insert_desc x acc) l acc) ->
                        Qle (fst e) (fst h).
Proof.
  revert acc; induction l as [|x l IH]; cbn [fold_left]; intros acc Ha.
  - exact Ha.
  - apply IH. apply insert_desc_head. exact Ha.
Qed.

(** X12.  The candidate that [match_from_candidates] returns is a best
    one: no candidate that passes the three threshold tests has a
    greater similarity ratio with the token. *)
Theorem close_match_best (token : text) (candidates : list text) (m x : text) :
  match_from_candidates token candidates = Ok (Some m) ->
  In x candidates ->
  close_enough CUTOFF x token = true ->
  Qle (ratio x token) (ratio m token).
Proof.
  intros H Hx C. destruct (match_from_candidates_hit _ _ _ H) as (q & rest & E).
  set (scored := flat_map (fun x => if close_enough CUTOFF x token
                                    then [(ratio x token, x)] else [])
                          candidates) in *.
  unfold nlargest in E.
  destruct (fold_left (fun acc x => insert_desc x acc) scored []) as [|h t] eqn:S;
    [discriminate E|].
  cbn [firstn] in E. injection E as -> _.
  assert (Hh : In (q, m) scored).
  { destruct (sort_desc_In scored [] (q, m)) as [G | []]; [|exact G].
    rewrite S. left. reflexivity. }
  apply scored_In in Hh. cbn [fst snd] in Hh. destruct Hh as (_ & _ & ->).
  assert (He : In (ratio x token, x) scored)
    by (apply scored_In; cbn [fst snd]; auto).
  assert (L : forall h t, @nil (Q * text) = h :: t ->
                          forall e, In e (@nil (Q * text)) -> Qle (fst e) (fst h))
    by (intros ? ? [=]).
  pose proof (sort_desc_head scored [] L _ _ S (ratio x token, x)) as G.
  cbn [fst] in G. apply G. apply sort_desc_keeps. left. exact He.
Qed.

Lemma close_match_best_witness :
  Qle (ratio (utf8 "forli cesenaa") (utf8 "forli cesena"))
      (ratio (utf8 "forli cesena") (utf8 "forli cesena")).
Proof.
  apply (close_match_best (utf8 "forli cesena")
                          [utf8 "forli cesenaa"; utf8 "forli cesena"]
                          (utf8 "forli cesena") (utf8 "forli cesenaa")).
  - vm_compute. reflexivity.
  - left. reflexivity.
  - vm_compute. reflexivity.
Defined.

(* ================================================================== *)
(** * When the result is [unknown], and tokens out of reach *)
(* ================================================================== *)

Lemma resolve_token_stages (tok : text) :
  resolve_token tok
  = match alias_pass tok with
    | Ok (Some t) => Ok t
    | Ok None =>
      match exact_pass tok with
      | Ok (Some t) => Ok t
      | Ok None =>
        match fuzzy_pass tok with
        | Ok (Some t) => Ok t
        | Ok None => Ok (if contains (utf8 "aosta") tok then AOSTA else UNKNOWN)
        | Raise e => Raise e
        end
      | Raise e => Raise e
      end
    | Raise e => Raise e
    end.
Proof.
  unfold resolve_token, or_else, aosta_pass.
  destruct (alias_pass tok) as [[t|]|e]; cbn [bind]; try reflexivity.
  destruct (exact_pass tok) as [[t|]|e]; cbn [bind]; try reflexivity.
  destruct (fuzzy_pass tok) as [[t|]|e]; cbn [bind]; try reflexivity.
  destruct (contains (utf8 "aosta") tok); reflexivity.
Qed.

Lemma fuzzy_tier_sat (P : Territory -> Prop) (tok : text) (cands : list text)
      (found : text -> stage) (next : stage) :
  (forall k, In k cands -> stage_sat P (found k)) ->
  stage_sat P next ->
  stage_sat P (m <- match_from_candidates tok cands ;;
               if truthy m
               then found (match m with Some k => k | None => [] end)
               else next).
Proof.
  intros Hfound Hnext.
  destruct (match_from_candidates_spec tok cands) as [-> | (k & -> & Hk)];
    cbn [bind truthy]; [exact Hnext|].
  destruct k as [|c k]; [exact Hnext|].
  exact (Hfound _ Hk).
Qed.

Lemma fuzzy_pass_known (tok : text) :
  stage_sat (fun t => level t <> unknown) (fuzzy_pass tok).
Proof.
  unfold fuzzy_pass.
  apply (fuzzy_tier_sat _ tok (dict_keys NORM_PROV) province_of_key).
  { intros k Hk. apply dict_keys_get in Hk. destruct Hk as (p & Hp).
    destruct (province_of_key_ok _ _ Hp) as (reg & mac & E & _).
    right. eexists. split; [exact E | discriminate]. }
  apply (fuzzy_tier_sat _ tok (dict_keys NORM_REG) region_of_key).
  { intros k Hk. apply dict_keys_get in Hk. destruct Hk as (r & Hr).
    destruct (region_of_key_ok _ _ Hr) as (mac & E & _).
    right. eexists. split; [exact E | discriminate]. }
  apply (fuzzy_tier_sat _ tok (dict_keys NORM_MAC) macro_of_key).
  { intros k Hk. apply dict_keys_get in Hk. destruct Hk as (m & Hm).
    destruct (macro_of_key_ok _ _ Hm) as (E & _).
    right. eexists. split; [exact E | discriminate]. }
  left. reflexivity.
Qed.

(** X13.  The result for a label is of level [unknown] exactly when its
    token is no key of the alias index, the close-match finds nothing in
    any of the three tiers, and the token does not contain "aosta". *)
Theorem unknown_iff (raw : text) (t : Territory) :
  standardize_territory (Some raw) = Ok t ->
  (level t = unknown
   <-> dict_get (base_normalize raw) NORM_ALIAS = None
       /\ fuzzy_pass (base_normalize raw) = Ok None
       /\ contains (utf8 "aosta") (base_normalize raw) = false).
Proof.
  cbn [standardize_territory]. rewrite resolve_token_stages.
  destruct (dict_get (base_normalize raw) NORM_ALIAS) as [v|] eqn:A.
  - destruct (alias_hit_record _ _ A) as (t' & -> & _ & L).
    intros [= <-]. split; [contradiction | intros (H & _); discriminate H].
  - rewrite (proj2 (alias_fall_through _) A).
    rewrite (exact_pass_subsumed _ (proj2 (alias_fall_through _) A)).
    destruct (fuzzy_pass_known (base_normalize raw)) as [-> | (t' & -> & L)].
    + destruct (contains (utf8 "aosta") (base_normalize raw)); intros [= <-].
      * split; [discriminate | intros (_ & _ & H); discriminate H].
      * split; auto.
    + intros [= <-]. split; [contradiction | intros (_ & H & _); discriminate H].
Qed.

Lemma unknown_iff_witness :
  unknown = unknown
  <-> dict_get (base_normalize (utf8 "Atlantide")) NORM_ALIAS = None
      /\ fuzzy_pass (base_normalize (utf8 "Atlantide")) = Ok None
      /\ contains (utf8 "aosta") (base_normalize (utf8 "Atlantide")) = false.
Proof.
  apply (unknown_iff (utf8 "Atlantide") (mkTerritory unknown None None None)).
  vm_compute. reflexivity.
Defined.

Lemma key_lengths (k : text) :
  In k (dict_keys NORM_ALIAS ++ dict_keys NORM_PROV
        ++ dict_keys NORM_REG ++ dict_keys NORM_MAC) ->
  (3 <= List.length k <= 28)%nat.
Proof.
  intros H.
  assert (F : forallb (fun k => (3 <=? List.length k)%nat
                                && (List.length k <=? 28)%nat)
                (dict_keys NORM_ALIAS ++ dict_keys NORM_PROV
                 ++ dict_keys NORM_REG ++ dict_keys NORM_MAC) = true)
    by (vm_compute; reflexivity).
  rewrite forallb_forall in F. specialize (F _ H).
  rewrite andb_true_iff, !Nat.leb_le in F. exact F.
Qed.

Lemma close_match_window (token : text) (candidates : list text) (m : text) :
  match_from_candidates token candidates = Ok (Some m) ->
  In m candidates
  /\ (9 * (List.length m + List.length token)
      <= 20 * Nat.min (List.length m) (List.length token))%nat.
Proof.
  intros H. destruct (match_from_candidates_hit _ _ _ H) as (q & rest & E).
  assert (Hin : In (q, m) (nlargest 1
            (flat_map (fun x => if close_enough CUTOFF x token
                                then [(ratio x token, x)] else [])
                      candidates))) by (rewrite E; left; reflexivity).
  apply nlargest_In, scored_In in Hin. cbn [fst snd] in Hin.
  destruct Hin as (Hm & C & _).
  destruct (close_enough_tests _ _ _ C) as (T1 & _ & _).
  split; [exact Hm | exact (real_quick_window _ _ T1)].
Qed.

Lemma out_of_window (tok : text) (cands : list text) :
  (forall k, In k cands -> (3 <= List.length k <= 28)%nat) ->
  (List.length tok <= 2 \/ 35 <= List.length tok)%nat ->
  match_from_candidates tok cands = Ok None.
Proof.
  intros Hk Ht.
  destruct (match_from_candidates_spec tok cands) as [E | (m & E & _)];
    [exact E|].
  exfalso. destruct (close_match_window _ _ _ E) as (Hm & W).
  specialize (Hk _ Hm). lia.
Qed.

Lemma out_of_reach (tok : text) :
  (List.length tok <= 2 \/ 35 <= List.length tok)%nat ->
  resolve_token tok
  = Ok (if contains (utf8 "aosta") tok then AOSTA else UNKNOWN).
Proof.
  intros Ht.
  assert (A : dict_get tok NORM_ALIAS = None).
  { destruct (dict_get tok NORM_ALIAS) as [v|] eqn:A; [|reflexivity].
    apply dict_get_key in A.
    assert (L : (3 <= List.length tok <= 28)%nat)
      by (apply key_lengths; apply in_or_app; left; exact A).
    lia. }
  assert (T : forall cands,
             incl cands (dict_keys NORM_PROV ++ dict_keys NORM_REG
                         ++ dict_keys NORM_MAC) ->
             match_from_candidates tok cands = Ok None).
  { intros cands Hc. apply out_of_window; [|exact Ht].
    intros k Hk. apply key_lengths. apply in_or_app. right. exact (Hc _ Hk). }
  rewrite resolve_token_stages.
  rewrite (proj2 (alias_fall_through _) A).
  rewrite (exact_pass_subsumed _ (proj2 (alias_fall_through _) A)).
  unfold fuzzy_pass.
  rewrite (T (dict_keys NORM_PROV)) by (intros k Hk; apply in_or_app; auto).
  cbn [bind truthy].
  rewrite (T (dict_keys NORM_REG))
    by (intros k Hk; apply in_or_app; right; apply in_or_app; auto).
  cbn [bind truthy].
  rewrite (T (dict_keys NORM_MAC))
    by (intros k Hk; apply in_or_app; right; apply in_or_app; auto).
  reflexivity.
Qed.

Lemma starts_with_needs_length (p x r : text) :
  starts_with p x = Some r -> (List.length p <= List.length x)%nat.
Proof.
  revert x; induction p as [|c p IH]; intros x; cbn [starts_with List.length].
  - lia.
  - destruct x as [|e x]; [discriminate|].
    destruct (N.eqb c e); [|discriminate].
    intros H. specialize (IH _ H). cbn [List.length]. lia.
Qed.

Lemma contains_needs_length (sub x : text) :
  contains sub x = true -> (List.length sub <= List.length x)%nat.
Proof.
  induction x as [|c x IH]; cbn [contains].
  - destruct (starts_with sub []) as [r|] eqn:E; [|discriminate].
    intros _. exact (starts_with_needs_length _ _ _ E).
  - destruct (starts_with sub (c :: x)) as [r|] eqn:E.
    + intros _. exact (starts_with_needs_length _ _ _ E).
    + intros H. specialize (IH H). cbn [List.length]. lia.
Qed.

Lemma short_has_no_aosta (tok : text) :
  (List.length tok <= 2)%nat -> contains (utf8 "aosta") tok = false.
Proof.
  intros H. destruct (contains (utf8 "aosta") tok) eqn:C; [|reflexivity].
  apply contains_needs_length in C.
  assert (L : List.length (utf8 "aosta") = 5%nat) by reflexivity.
  lia.
Qed.

(** X14.  A label whose token has at most two characters, a two-letter
    province code for one, is always of level [unknown]: no key of the
    index is that short and no candidate is close enough to it. *)
Theorem short_tokens_are_unknown (raw : text) :
  (List.length (base_normalize raw) <= 2)%nat ->
  standardize_territory (Some raw) = Ok (mkTerritory unknown None None None).
Proof.
  intros H. cbn [standardize_territory].
  rewrite out_of_reach by (left; exact H).
  rewrite (short_has_no_aosta _ H). reflexivity.
Qed.

Lemma short_tokens_are_unknown_witness :
  standardize_territory (Some (utf8 "MI")) = Ok (mkTerritory unknown None None None).
Proof.
  apply (short_tokens_are_unknown (utf8 "MI")). vm_compute. lia.
Defined.

(** X15.  A label whose token has 35 characters or more is beyond the
    reach of the alias index and of the close-match: it resolves to the
    region Valle d'Aosta when the token contains "aosta" and to
    [unknown] otherwise. *)
Theorem long_tokens_are_out_of_reach (raw : text) :
  (35 <= List.length (base_normalize raw))%nat ->
  standardize_territory (Some raw)
  = Ok (if contains (utf8 "aosta") (base_normalize raw)
        then mkTerritory region None
                         (Some (utf8 "Valle d'Aosta/Vallée d'Aoste"))
                         (Some (utf8 "Nord-ovest"))
        else mkTerritory unknown None None None).
Proof.
  intros H. cbn [standardize_territory].
  rewrite out_of_reach by (right; exact H). reflexivity.
Qed.

Lemma long_tokens_are_out_of_reach_witness :
  standardize_territory (Some (utf8 "Provincia autonoma di Bolzano - Alto Adige (Bozen)"))
  = Ok (mkTerritory unknown None None None).
Proof.
  apply (long_tokens_are_out_of_reach
           (utf8 "Provincia autonoma di Bolzano - Alto Adige (Bozen)")).
  vm_compute. lia.
Defined.

(* ================================================================== *)
(** * Apostrophes and dashes are interchangeable *)
(* ================================================================== *)









(* ================================================================== *)
(** * The derived tables invert the tables they come from *)
(* ================================================================== *)

(** X17.  [PROVINCE_TO_REGION] is the inverse of [REGION_TO_PROVINCES]:
    a province is mapped to a region exactly when that region lists it,
    so no province is listed under two regions. *)
Theorem province_to_region_inverts (p reg : text) :
  dict_get p PROVINCE_TO_REGION = Some reg
  <-> exists ps, dict_get reg REGION_TO_PROVINCES = Some ps /\ In p ps.
Proof.
  split.
  - intros H. destruct (province_to_region_sound _ _ H) as (ps & _ & H1 & H2 & _).
    eauto.
  - intros (ps & H & Hp). apply dict_get_In in H.
    assert (F : forallb (fun rp =>
                  forallb (fun q =>
                             match dict_get q PROVINCE_TO_REGION with
                             | Some r => text_eqb r (fst rp)
                             | None => false
                             end) (snd rp)) REGION_TO_PROVINCES = true)
      by (vm_compute; reflexivity).
    rewrite forallb_forall in F. specialize (F _ H). cbn [fst snd] in F.
    rewrite forallb_forall in F. specialize (F _ Hp).
    destruct (dict_get p PROVINCE_TO_REGION) as [r|]; [|discriminate F].
    apply text_eqb_eq in F. congruence.
Qed.

(** X18.  [REGION_TO_MACRO] is the inverse of [MACRO_TO_REGIONS], and
    its keys are the names of [REGIONS]: every region has exactly one
    macro-area, the one that lists it. *)
Theorem region_to_macro_inverts (reg mac : text) :
  (dict_get reg REGION_TO_MACRO = Some mac
   <-> exists rs, dict_get mac MACRO_TO_REGIONS = Some rs /\ In reg rs)
  /\ (In reg REGIONS <-> exists m, dict_get reg REGION_TO_MACRO = Some m).
Proof.
  split; split.
  - intros H. destruct (region_to_macro_entries _ _ H) as (_ & rs & H1 & H2).
    eauto.
  - intros (rs & H & Hr). apply dict_get_In in H.
    assert (F : forallb (fun mr =>
                  forallb (fun q =>
                             match dict_get q REGION_TO_MACRO with
                             | Some m => text_eqb m (fst mr)
                             | None => false
                             end) (snd mr)) MACRO_TO_REGIONS = true)
      by (vm_compute; reflexivity).
    rewrite forallb_forall in F. specialize (F _ H). cbn [fst snd] in F.
    rewrite forallb_forall in F. specialize (F _ Hr).
    destruct (dict_get reg REGION_TO_MACRO) as [m|]; [|discriminate F].
    apply text_eqb_eq in F. congruence.
  - apply region_to_macro_total.
  - intros (m & H). apply dict_get_In in H.
    assert (F : forallb (fun rm => mem (fst rm) REGIONS) REGION_TO_MACRO = true)
      by (vm_compute; reflexivity).
    rewrite forallb_forall in F. apply mem_In. exact (F _ H).
Qed.

(* ================================================================== *)
(** * The coverage functions read a populated column; absent filters *)
(* ================================================================== *)

(** X19.  For a record that [standardize_territory] returns, if
    [_territory_col_for] accepts the record's own level, the column it
    names holds the name the record stands for; it is never [None]. *)
Theorem level_column_is_populated (raw : option text) (t : Territory)
        (col : string) :
  standardize_territory raw = Ok t ->
  _territory_col_for (level_name (level t)) = Ok col ->
  exists name, territory_get t col = Ok (Some name)
               /\ most_specific t = Some name.
Proof.
  intros E C. destruct (standardize_territory_resolved raw) as (t' & E' & R).
  rewrite E in E'. injection E' as <-.
  destruct R as [p reg mac ps H1 H2 H3 H4 | reg mac H1 H2 | mac H1 | ];
    cbn in C; try discriminate C; injection C as <-.
  - exists p. split; reflexivity.
  - exists reg. split; reflexivity.
Qed.

Lemma level_column_is_populated_witness :
  exists name,
    territory_get (mkTerritory region None (Some (utf8 "Trentino-Alto Adige/Südtirol"))
                               (Some (utf8 "Nord-est"))) "region_std"
    = Ok (Some name)
    /\ most_specific (mkTerritory region None
                                  (Some (utf8 "Trentino-Alto Adige/Südtirol"))
                                  (Some (utf8 "Nord-est"))) = Some name.
Proof.
  apply (level_column_is_populated (Some (utf8 "trentino-alto adige"))).
  - vm_compute. reflexivity.
  - reflexivity.
Defined.

Lemma absent_column (col : string) (cols : list string) :
  ~ In col cols -> existsb (String.eqb col) cols = false.
Proof.
  intros H. destruct (existsb (String.eqb col) cols) eqn:E; [|reflexivity].
  exfalso. apply existsb_exists in E. destruct E as (c & Hc & Ec).
  apply String.eqb_eq in Ec. subst c. exact (H Hc).
Qed.

(** X20.  Filters on columns that the frame does not have are ignored,
    without an error: when no filter names a column of the frame,
    [_apply_filters] returns the copy of the frame it started from. *)
Theorem absent_filter_columns_are_ignored
        (DataFrame Allowed : Type)
        (columns : DataFrame -> list string)
        (keep_isin : DataFrame -> string -> Allowed -> DataFrame)
        (copy : DataFrame -> DataFrame)
        (df : DataFrame) (filters : dict string Allowed) :
  filters <> [] ->
  (forall col, In col (dict_keys filters) -> ~ In col (columns (copy df))) ->
  _apply_filters columns keep_isin copy df (Some filters) = copy df.
Proof.
  intros Ne H. unfold _apply_filters.
  destruct filters as [|f filters]; [contradiction|].
  generalize dependent (f :: filters). clear f filters.
  intros items _. induction items as [|[col allowed] items IH]; intros H;
    [reflexivity|].
  cbn [fold_left fst snd].
  rewrite absent_column by (apply H; left; reflexivity).
  apply IH. intros c Hc. apply H. right. exact Hc.
Qed.

Lemma absent_filter_columns_are_ignored_witness :
  _apply_filters (fun _ : list (string * string) => ["year"; "variable"; "value"]%string)
                 (fun df col (allowed : list string) =>
                    filter (fun row => existsb (String.eqb (snd row)) allowed) df)
                 (fun df => df)
                 [("year", "2020"); ("value", "1")]%string
                 (Some [("sex"%string, ["Totale"%string])])
  = [("year", "2020"); ("value", "1")]%string.
Proof.
  apply (absent_filter_columns_are_ignored
           (list (string * string)) (list string)
           (fun _ => ["year"; "variable"; "value"]%string)
           (fun df col allowed =>
              filter (fun row => existsb (String.eqb (snd row)) allowed) df)
           (fun df => df)
           [("year", "2020"); ("value", "1")]%string
           [("sex"%string, ["Totale"%string])]).
  - discriminate.
  - intros col [<- | []] [E | [E | [E | []]]]; discriminate E.
Defined.
